(** * Image-caption generator: caption loading, decoder masks, masked
      loss, learning-rate schedule, greedy decoding and the training step.

    A shallow embedding of [imagecaption_generator_aiml.py].  Python
    exceptions are values of [exn] carried by the [result] monad; the
    dictionary and the set of [map_image_caption] are a [gmap] and a
    [gset]; tensors are nested lists; [tf.float32] scalars are exact
    rationals extended with the IEEE special values. *)

From Stdlib Require Import ZArith QArith Qcanon Ascii String.
From stdpp Require Import gmap strings list fin_maps.

Local Open Scope string_scope.
Local Open Scope list_scope.
Local Open Scope nat_scope.

(** ** Exceptions and the result monad *)

Inductive exn : Type :=
  | ValueError (msg : string)
  | UnboundLocalError (name : string)
  | KeyError (key : Z)
  | IndexError (index : Z)
  | ZeroDivisionError.

Inductive result (A : Type) : Type :=
  | Ok (a : A)
  | Raise (e : exn).
Arguments Ok {A} a.
Arguments Raise {A} e.

#[global] Instance result_ret : MRet result := λ A a, Ok a.
#[global] Instance result_bind : MBind result := λ A B k r,
  match r with
  | Ok a => k a
  | Raise e => Raise e
  end.

(** ** Python string operations used by the caption loader *)

Module py.

(** [str.isspace] on the code points below 256. *)
Definition isspace (c : ascii) : bool :=
  let n := nat_of_ascii c in
  (((9 <=? n) && (n <=? 13)) || ((28 <=? n) && (n <=? 32))
   || (n =? 133) || (n =? 160))%nat.

Definition is_char (x c : ascii) : bool := Ascii.eqb x c.

Fixpoint lstrip (p : ascii → bool) (s : string) : string :=
  match s with
  | EmptyString => EmptyString
  | String c s' => if p c then lstrip p s' else s
  end.

Fixpoint rstrip (p : ascii → bool) (s : string) : string :=
  match s with
  | EmptyString => EmptyString
  | String c s' =>
      match rstrip p s' with
      | EmptyString => if p c then EmptyString else String c EmptyString
      | r => String c r
      end
  end.

(** [s.strip(chars)] for the characters accepted by [p]. *)
Definition strip_by (p : ascii → bool) (s : string) : string :=
  rstrip p (lstrip p s).

(** [s.strip()] *)
Definition strip (s : string) : string := strip_by isspace s.

(** [s.split(sep)] for a one-character separator: never empty. *)
Fixpoint split (sep : ascii) (s : string) : list string :=
  match s with
  | EmptyString => [EmptyString]
  | String c s' =>
      if Ascii.eqb c sep then EmptyString :: split sep s'
      else match split sep s' with
           | h :: t => String c h :: t
           | [] => [String c EmptyString]
           end
  end.

Definition head_isspace (s : string) : bool :=
  match s with
  | EmptyString => false
  | String c _ => isspace c
  end.

(** [s.split()]: maximal runs of non-whitespace characters. *)
Fixpoint split_ws (s : string) : list string :=
  match s with
  | EmptyString => []
  | String c s' =>
      let rest := split_ws s' in
      if isspace c then rest
      else match rest with
           | w :: ws =>
               if head_isspace s' then String c EmptyString :: w :: ws
               else String c w :: ws
           | [] => [String c EmptyString]
           end
  end.

Definition startswith (s p : string) : bool := String.prefix p s.

Fixpoint endswith (s p : string) : bool :=
  String.eqb s p ||
  match s with
  | EmptyString => false
  | String _ s' => endswith s' p
  end.

(** [os.path.join(a, b)] on a POSIX system, for a non-empty [a] that
    does not end with a slash. *)
Definition path_join (a b : string) : string :=
  if startswith b "/" then b else a +:+ "/" +:+ b.

End py.

(** ** Constants of the script *)

Definition sequence_length : nat := 25.

(** ** [map_image_caption] *)

Record loader_state : Type := LoaderState {
  mapped_captions : gmap string (list string);
  text_data : list string;
  skip_these_images : gset string
}.

Definition loader_init : loader_state :=
  LoaderState ∅ [] ∅.

(** The tuple assignment [image_name, caption = ...split("\t")]. *)
Definition unpack2 (fields : list string) : result (string * string) :=
  match fields with
  | [a; b] => Ok (a, b)
  | [] | [_] => Raise (ValueError "not enough values to unpack (expected 2)")
  | _ => Raise (ValueError "too many values to unpack (expected 2)")
  end.

Definition newline : ascii := ascii_of_nat 10.
Definition tab : ascii := ascii_of_nat 9.

(** One iteration of the loop over [caption_data]. *)
Definition map_line (st : loader_state) (c_data : string) : result loader_state :=
  '(image_name, caption) ←
     unpack2 (py.split tab (py.strip_by (py.is_char newline) c_data)) ;
  let caption := py.strip caption in
  let image_name :=
    py.path_join "Flicker8k_Dataset"
      (py.strip (hd EmptyString (py.split "#"%char image_name))) in
  let tokens := py.split_ws (py.strip caption) in
  if (length tokens <? 5)%nat || (sequence_length <? length tokens)%nat then
    Ok (LoaderState (mapped_captions st) (text_data st)
          ({[image_name]} ∪ skip_these_images st))
  else if py.endswith image_name "jpg"
          && negb (bool_decide (image_name ∈ skip_these_images st)) then
    let text_data' := text_data st ++ ["<start> " +:+ caption +:+ " <end>"] in
    let mapped' :=
      match mapped_captions st !! image_name with
      | Some caps => <[image_name := caps ++ [caption]]> (mapped_captions st)
      | None => <[image_name := [caption]]> (mapped_captions st)
      end in
    Ok (LoaderState mapped' text_data' (skip_these_images st))
  else Ok st.

Fixpoint map_lines (st : loader_state) (caption_data : list string)
  : result loader_state :=
  match caption_data with
  | [] => Ok st
  | c_data :: rest => st' ← map_line st c_data ; map_lines st' rest
  end.

(** The closing loop [for image_name in skip_these_images: ... del]. *)
Definition drop_skipped (skip : gset string) (m : gmap string (list string))
  : gmap string (list string) :=
  set_fold (λ image_name m,
              match m !! image_name with
              | Some _ => delete image_name m
              | None => m
              end) m skip.

(** [caption_data] is what [readlines()] returned. *)
Definition map_image_caption (caption_data : list string)
  : result (gmap string (list string) * list string) :=
  st ← map_lines loader_init caption_data ;
  Ok (drop_skipped (skip_these_images st) (mapped_captions st), text_data st).

(** ** TensorFlow scalars and tensors *)

Module tf.

(** [tf.float32] with exact arithmetic: a finite value is a rational and
    sums, products and quotients are not rounded; overflow never
    happens; a zero is unsigned and divides like +0.  Division by zero
    and the arithmetic of the special values follow IEEE 754: nothing
    is raised.  The cast of an integer tensor does round, to the 24 bits
    of the significand ([cast_float32]), since a comparison of two cast
    integers depends on it. *)
Inductive float32 : Type :=
  | Fin (q : Qc)
  | Inf (negative : bool)
  | NaN.

Definition zero : float32 := Fin 0.
Definition one : float32 := Fin 1.

Definition is_finite (x : float32) : Prop :=
  match x with Fin _ => True | _ => False end.

Definition add (x y : float32) : float32 :=
  match x, y with
  | NaN, _ | _, NaN => NaN
  | Fin a, Fin b => Fin (a + b)
  | Inf s, Fin _ | Fin _, Inf s => Inf s
  | Inf s, Inf s' => if Bool.eqb s s' then Inf s else NaN
  end.

(** The infinity of sign [s] scaled by the finite [q]. *)
Definition scale_inf (s : bool) (q : Qc) : float32 :=
  match (q ?= 0)%Qc with
  | Eq => NaN
  | Gt => Inf s
  | Lt => Inf (negb s)
  end.

Definition mul (x y : float32) : float32 :=
  match x, y with
  | NaN, _ | _, NaN => NaN
  | Fin a, Fin b => Fin (a * b)
  | Inf s, Fin q | Fin q, Inf s => scale_inf s q
  | Inf s, Inf s' => Inf (xorb s s')
  end.

Definition div (x y : float32) : float32 :=
  match x, y with
  | NaN, _ | _, NaN => NaN
  | Fin a, Fin b =>
      match (b ?= 0)%Qc with
      | Eq => match (a ?= 0)%Qc with
              | Eq => NaN
              | Gt => Inf false
              | Lt => Inf true
              end
      | _ => Fin (a / b)
      end
  | Fin _, Inf _ => Fin 0
  | Inf s, Fin b => match (b ?= 0)%Qc with Lt => Inf (negb s) | _ => Inf s end
  | Inf _, Inf _ => NaN
  end.

(** [x < y]; false as soon as one side is NaN. *)
Definition less (x y : float32) : bool :=
  match x, y with
  | NaN, _ | _, NaN => false
  | Fin a, Fin b => match (a ?= b)%Qc with Lt => true | _ => false end
  | Inf s, Fin _ => s
  | Fin _, Inf s => negb s
  | Inf s, Inf s' => s && negb s'
  end.

(** An integer as a float32 value, and [tf.cast(_, tf.float32)] of a
    boolean.  [cast_int] is exact: it stands for the numbers that
    float32 holds exactly, the counts of positions and [float(n)] of a
    small [n]. *)
Definition cast_int (z : Z) : float32 := Fin (Q2Qc (inject_Z z)).
Definition cast_bool (b : bool) : float32 := if b then one else zero.

(** The multiple of 2^e nearest to [a ≥ 0], a tie going to the even
    multiple. *)
Definition round_to_ulp (e a : Z) : Z :=
  let ulp := (2 ^ e)%Z in
  let m := (a / ulp)%Z in
  let r := (a mod ulp)%Z in
  if (2 * r <? ulp)%Z then (m * ulp)%Z
  else if (ulp <? 2 * r)%Z then ((m + 1) * ulp)%Z
  else if Z.even m then (m * ulp)%Z else ((m + 1) * ulp)%Z.

(** The integer that float32 holds in place of [z]: the nearest one
    with a significand of 24 bits, ties to even.  Below 2^24 it is [z];
    an integer of 64 bits is far from the overflow threshold. *)
Definition round_float32 (z : Z) : Z :=
  let a := Z.abs z in
  (Z.sgn z * round_to_ulp (Z.max 0 (Z.log2 a - 23)) a)%Z.

(** [tf.cast(_, tf.float32)] of an integer tensor. *)
Definition cast_float32 (z : Z) : float32 := cast_int (round_float32 z).

(** [tf.cast(_, tf.int32)] of a boolean. *)
Definition cast_bool_int (b : bool) : Z := if b then 1%Z else 0%Z.

(** The same casts, element-wise on a matrix. *)
Definition cast_mask (t : list (list bool)) : list (list float32) :=
  fmap (M:=list) (fmap (M:=list) cast_bool) t.
Definition cast_mask_int (t : list (list bool)) : list (list Z) :=
  fmap (M:=list) (fmap (M:=list) cast_bool_int) t.

(** [tf.reduce_sum] of a vector and of a matrix (all elements). *)
Definition sum (v : list float32) : float32 := foldr add zero v.
Definition reduce_sum (t : list (list float32)) : float32 := sum (concat t).

(** [tf.range(n)] *)
Definition range (n : nat) : list Z := Z.of_nat <$> seq 0 n.

(** [v[:, tf.newaxis]]: shape (n) to (n, 1). *)
Definition column {A} (v : list A) : list (list A) := (λ x, [x]) <$> v.

(** [i >= j] for [i] of shape (n, 1) and [j] of shape (m): the
    broadcast comparison, of shape (n, m). *)
Definition greater_equal (i : list (list Z)) (j : list Z) : list (list bool) :=
  (λ row, (λ y, hd 0 row >=? y)%Z <$> j) <$> i.

(** [n] consecutive blocks of [k] elements. *)
Fixpoint chunks {A} (n k : nat) (l : list A) : list (list A) :=
  match n with
  | O => []
  | S n' => take k l :: chunks n' k (drop k l)
  end.

(** [tf.reshape(t, (d0, d1, d2))] of a matrix. *)
Definition reshape3 {A} (t : list (list A)) (d0 d1 d2 : nat)
  : list (list (list A)) :=
  chunks d1 d2 <$> chunks d0 (d1 * d2) (concat t).

(** [n] copies of a list, one after the other. *)
Definition repeat_along {A} (n : nat) (l : list A) : list A :=
  concat (replicate n l).

(** [tf.tile(t, [m0, m1, m2])] of a rank-3 tensor. *)
Definition tile3 {A} (t : list (list (list A))) (m0 m1 m2 : nat)
  : list (list (list A)) :=
  repeat_along m0
    ((λ mat, repeat_along m1 ((λ row, repeat_along m2 row) <$> mat)) <$> t).

(** [tf.shape] of a rank-3 tensor held as nested lists. *)
Definition shape3 {A} (t : list (list (list A))) : list nat :=
  [length t; length (hd [] t); length (hd [] (hd [] t))].

(** Element-wise operations on matrices and rank-3 tensors. *)
Definition map2 {A B C} (f : A → B → C) (s : list (list A)) (t : list (list B))
  : list (list C) := zip_with (zip_with f) s t.
Definition map3 {A B C} (f : A → B → C)
    (s : list (list (list A))) (t : list (list (list B)))
  : list (list (list C)) := zip_with (map2 f) s t.

(** [m[:, :, tf.newaxis]] and [m[:, tf.newaxis, :]] cast to int32:
    shape (b, l) to (b, l, 1) and to (b, 1, l). *)
Definition newaxis_last (m : list (list bool)) : list (list (list Z)) :=
  column <$> cast_mask_int m.
Definition newaxis_middle (m : list (list bool)) : list (list (list Z)) :=
  column (cast_mask_int m).

(** [tf.minimum(a, b)] for [a] of shape (b, 1, l) broadcast against
    [b] of shape (b, l, l). *)
Definition minimum (a b : list (list (list Z))) : list (list (list Z)) :=
  zip_with (λ a_b b_b, (λ b_row, zip_with Z.min (hd [] a_b) b_row) <$> b_b) a b.

(** [tf.math.not_equal(t, 0)] *)
Definition not_equal_0 (t : list (list Z)) : list (list bool) :=
  fmap (M:=list) (fmap (M:=list) (λ x, negb (x =? 0)%Z)) t.

(** [tf.argmax] and [np.argmax] of a vector of numbers: the first index
    of the largest entry.  A row that mixes NaN with numbers is outside
    this model; a softmax row holds numbers only or NaN only. *)
Fixpoint argmax_from (best_i : nat) (best : float32) (i : nat)
    (v : list float32) : nat :=
  match v with
  | [] => best_i
  | x :: v' =>
      if less best x then argmax_from i x (S i) v'
      else argmax_from best_i best (S i) v'
  end.
Definition argmax (v : list float32) : Z :=
  match v with
  | [] => 0%Z
  | x :: v' => Z.of_nat (argmax_from 0 x 1 v')
  end.

End tf.

Abbreviation tensor2 := (list (list tf.float32)).
Abbreviation tensor3 := (list (list (list tf.float32))).

Abbreviation tokens2 := (list (list Z)).
Abbreviation mask2 := (list (list bool)).
Abbreviation mask3 := (list (list (list Z))).

(** Reading a local variable that an untaken branch would have bound. *)
Definition local {A} (name : string) (v : option A) : result A :=
  match v with
  | Some a => Ok a
  | None => Raise (UnboundLocalError name)
  end.

(** ** [DecoderClass] *)

Module DecoderClass.

(** The sub-layers held by [self]; the Keras layers are parameters. *)
Record t : Type := {
  embedding : tokens2 → tensor3;
  first_attention_layer : tensor3 → tensor3 → tensor3 → mask3 → bool → tensor3;
  second_attention_layer : tensor3 → tensor3 → tensor3 → mask3 → bool → tensor3;
  first_feed_forward_layer : tensor3 → tensor3;
  second_feed_forward_layer : tensor3 → tensor3;
  first_normalization_layer : tensor3 → tensor3;
  second_normalization_layer : tensor3 → tensor3;
  third_normalization_layer : tensor3 → bool → tensor3;
  out : tensor3 → tensor3;
  first_dropout_layer : tensor3 → bool → tensor3;
  second_dropout_layer : tensor3 → bool → tensor3
}.

(** [input_shape] is [tf.shape(inputs)]. *)
Definition get_causal_attention_mask (input_shape : list nat) : mask3 :=
  let batch_size := input_shape !!! 0%nat in
  let sequence_length := input_shape !!! 1%nat in
  let i := tf.column (tf.range sequence_length) in
  let j := tf.range sequence_length in
  let mask := tf.cast_mask_int (tf.greater_equal i j) in
  let mask := tf.reshape3 mask 1 (input_shape !!! 1%nat) (input_shape !!! 1%nat) in
  let mult := [batch_size] ++ [1; 1]%nat in
  tf.tile3 mask (mult !!! 0%nat) (mult !!! 1%nat) (mult !!! 2%nat).

Definition call (self : t) (inputs : tokens2) (encoder_outputs : tensor3)
    (training : bool) (mask : option mask2) : result tensor3 :=
  let inputs := embedding self inputs in
  let causal_mask := get_causal_attention_mask (tf.shape3 inputs) in
  let '(padding_mask, combined_mask) :=
    match mask with
    | Some mask =>
        let padding_mask := tf.newaxis_last mask in
        let combined_mask := tf.newaxis_middle mask in
        let combined_mask := tf.minimum combined_mask causal_mask in
        (Some padding_mask, Some combined_mask)
    | None => (None, None)
    end in
  combined_mask ← local "combined_mask" combined_mask;
  let first_attention_output :=
    first_attention_layer self inputs inputs inputs combined_mask training in
  let first_normalization_output :=
    first_normalization_layer self (tf.map3 tf.add inputs first_attention_output) in
  padding_mask ← local "padding_mask" padding_mask;
  let second_attention_output :=
    second_attention_layer self first_normalization_output
      encoder_outputs encoder_outputs padding_mask training in
  let second_normalization_output :=
    second_normalization_layer self
      (tf.map3 tf.add first_normalization_output second_attention_output) in
  let output := first_feed_forward_layer self second_normalization_output in
  let output := first_dropout_layer self output training in
  let output := second_feed_forward_layer self output in
  let output :=
    third_normalization_layer self
      (tf.map3 tf.add output second_normalization_output) training in
  let output := second_dropout_layer self output training in
  Ok (out self output).

End DecoderClass.

(** ** [TransformerDecoderBlock], the second copy of the decoder *)

Module TransformerDecoderBlock.

Record t : Type := {
  embedding : tokens2 → tensor3;
  attention_1 : tensor3 → tensor3 → tensor3 → mask3 → bool → tensor3;
  attention_2 : tensor3 → tensor3 → tensor3 → mask3 → bool → tensor3;
  ffn_layer_1 : tensor3 → tensor3;
  ffn_layer_2 : tensor3 → tensor3;
  layernorm_1 : tensor3 → tensor3;
  layernorm_2 : tensor3 → tensor3;
  layernorm_3 : tensor3 → bool → tensor3;
  out : tensor3 → tensor3;
  dropout_1 : tensor3 → bool → tensor3;
  dropout_2 : tensor3 → bool → tensor3
}.

Definition get_causal_attention_mask (input_shape : list nat) : mask3 :=
  let batch_size := input_shape !!! 0%nat in
  let sequence_length := input_shape !!! 1%nat in
  let i := tf.column (tf.range sequence_length) in
  let j := tf.range sequence_length in
  let mask := tf.cast_mask_int (tf.greater_equal i j) in
  let mask := tf.reshape3 mask 1 (input_shape !!! 1%nat) (input_shape !!! 1%nat) in
  let mult := [batch_size] ++ [1; 1]%nat in
  tf.tile3 mask (mult !!! 0%nat) (mult !!! 1%nat) (mult !!! 2%nat).

Definition call (self : t) (inputs : tokens2) (encoder_outputs : tensor3)
    (training : bool) (mask : option mask2) : result tensor3 :=
  let inputs := embedding self inputs in
  let causal_mask := get_causal_attention_mask (tf.shape3 inputs) in
  let '(padding_mask, combined_mask) :=
    match mask with
    | Some mask =>
        let padding_mask := tf.newaxis_last mask in
        let combined_mask := tf.newaxis_middle mask in
        let combined_mask := tf.minimum combined_mask causal_mask in
        (Some padding_mask, Some combined_mask)
    | None => (None, None)
    end in
  combined_mask ← local "combined_mask" combined_mask;
  let attention_output_1 :=
    attention_1 self inputs inputs inputs combined_mask training in
  let out_1 := layernorm_1 self (tf.map3 tf.add inputs attention_output_1) in
  padding_mask ← local "padding_mask" padding_mask;
  let attention_output_2 :=
    attention_2 self out_1 encoder_outputs encoder_outputs padding_mask training in
  let out_2 := layernorm_2 self (tf.map3 tf.add out_1 attention_output_2) in
  let ffn_out := ffn_layer_1 self out_2 in
  let ffn_out := dropout_1 self ffn_out training in
  let ffn_out := ffn_layer_2 self ffn_out in
  let ffn_out := layernorm_3 self (tf.map3 tf.add ffn_out out_2) training in
  let ffn_out := dropout_2 self ffn_out training in
  let preds := out self ffn_out in
  Ok preds.

End TransformerDecoderBlock.

(** ** [ImageCaptioningModel] *)

Module ImageCaptioningModel.

(** Variables are identified by the object that holds them. *)
Abbreviation weights := (gmap positive tensor2).

(** [keras.metrics.Mean] *)
Record Mean : Type := { total : tf.float32; count : tf.float32 }.

Definition update_state (m : Mean) (x : tf.float32) : Mean :=
  {| total := tf.add (total m) x; count := tf.add (count m) tf.one |}.

Definition div_no_nan (x y : tf.float32) : tf.float32 :=
  match y with
  | tf.Fin q => match (q ?= 0)%Qc with Eq => tf.zero | _ => tf.div x y end
  | _ => tf.div x y
  end.

Definition Mean_result (m : Mean) : tf.float32 := div_no_nan (total m) (count m).

Section Model.
(** Image batches and the optimizer's own slots are opaque. *)
Context {images opt_state : Type}.

(** The attributes of [self] that a step only reads.  A forward pass
    reads the variables and writes none; [tape_gradient] is the
    gradient of the loss recorded by the tape, with respect to the
    listed variables; [optimizer_update] is the new value of one
    variable given its gradient. *)
Record t : Type := {
  cnn_model : weights → images → tensor3;
  cnn_variables : list positive;
  encoder : weights → tensor3 → bool → tensor3;
  encoder_trainable_variables : list positive;
  decoder : weights → tokens2 → tensor3 → bool → option mask2 → result tensor3;
  decoder_trainable_variables : list positive;
  num_captions_per_image : nat;
  image_aug : option (images → images);
  loss : tokens2 → tensor3 → tensor2;
  tape_gradient : weights → tensor3 → tokens2 → list positive → list tensor2;
  optimizer_update : opt_state → positive → tensor2 → tensor2 → tensor2;
  optimizer_step : opt_state → opt_state
}.

(** What a step can write. *)
Record state : Type := State {
  variables : weights;
  optimizer : opt_state;
  loss_tracker : Mean;
  acc_tracker : Mean
}.

Definition calculate_loss (self : t) (y_true : tokens2) (y_pred : tensor3)
    (mask : mask2) : tf.float32 :=
  let loss := loss self y_true y_pred in
  let mask := tf.cast_mask mask in
  let loss := tf.map2 tf.mul loss mask in
  tf.div (tf.reduce_sum loss) (tf.reduce_sum mask).

Definition calculate_accuracy (self : t) (y_true : tokens2) (y_pred : tensor3)
    (mask : mask2) : tf.float32 :=
  let accuracy :=
    tf.map2 Z.eqb y_true (fmap (M:=list) (fmap (M:=list) tf.argmax) y_pred) in
  let accuracy := tf.map2 andb mask accuracy in
  let accuracy := tf.cast_mask accuracy in
  let mask := tf.cast_mask mask in
  tf.div (tf.reduce_sum accuracy) (tf.reduce_sum mask).

Definition _compute_caption_loss_and_acc (self : t) (w : weights)
    (img_embed : tensor3) (batch_seq : tokens2) (training : bool)
  : result (tf.float32 * tf.float32) :=
  let encoder_out := encoder self w img_embed training in
  let batch_seq_inp := (λ row : list Z, take (length row - 1) row) <$> batch_seq in
  let batch_seq_true := (λ row : list Z, drop 1 row) <$> batch_seq in
  let mask := tf.not_equal_0 batch_seq_true in
  batch_seq_pred ← decoder self w batch_seq_inp encoder_out training (Some mask);
  let loss := calculate_loss self batch_seq_true batch_seq_pred mask in
  let acc := calculate_accuracy self batch_seq_true batch_seq_pred mask in
  Ok (loss, acc).

(** [optimizer.apply_gradients(grads_and_vars)]: each listed variable
    is assigned in place. *)
Definition apply_gradients (self : t) (grads_and_vars : list (tensor2 * positive))
    (st : state) : state :=
  let vars' :=
    foldl (λ (w : weights) gv, alter (optimizer_update self (optimizer st) gv.2 gv.1) gv.2 w)
          (variables st) grads_and_vars in
  State vars' (optimizer_step self (optimizer st)) (loss_tracker st) (acc_tracker st).

(** [batch_seq[:, i, :]] *)
Definition caption_slice (batch_seq : list tokens2) (i : nat) : result tokens2 :=
  mapM (M:=result) (λ caps : tokens2,
          match caps !! i with
          | Some c => Ok c
          | None => Raise (IndexError (Z.of_nat i))
          end) batch_seq.

(** The body of the loop of [train_step], for caption [i]; the writes
    made before an exception stay. *)
Definition train_caption (self : t) (img_embed : tensor3)
    (batch_seq : list tokens2) (i : nat)
    (acc : state * result (tf.float32 * tf.float32))
  : state * result (tf.float32 * tf.float32) :=
  match acc with
  | (st, Raise e) => (st, Raise e)
  | (st, Ok (batch_loss, batch_acc)) =>
      match caption_slice batch_seq i with
      | Raise e => (st, Raise e)
      | Ok seq_i =>
          match _compute_caption_loss_and_acc self (variables st)
                  img_embed seq_i true with
          | Raise e => (st, Raise e)
          | Ok (loss, acc) =>
              let batch_loss := tf.add batch_loss loss in
              let batch_acc := tf.add batch_acc acc in
              let train_vars :=
                encoder_trainable_variables self
                ++ decoder_trainable_variables self in
              let grads :=
                tape_gradient self (variables st) img_embed seq_i train_vars in
              (apply_gradients self (zip grads train_vars) st,
               Ok (batch_loss, batch_acc))
          end
      end
  end.

Definition train_step (self : t) (batch_data : images * list tokens2) (st : state)
  : state * result (tf.float32 * tf.float32) :=
  let '(batch_img, batch_seq) := batch_data in
  let batch_img :=
    match image_aug self with
    | Some aug => aug batch_img
    | None => batch_img
    end in
  let img_embed := cnn_model self (variables st) batch_img in
  match foldl (λ acc i, train_caption self img_embed batch_seq i acc)
              (st, Ok (tf.zero, tf.zero))
              (seq 0 (num_captions_per_image self)) with
  | (st, Raise e) => (st, Raise e)
  | (st, Ok (batch_loss, batch_acc)) =>
      (* Without a pass of the loop [batch_acc] is still the Python
         integer 0, and [0 / float(0)] is Python's division. *)
      if (num_captions_per_image self =? 0)%nat then (st, Raise ZeroDivisionError)
      else
      let batch_acc :=
        tf.div batch_acc (tf.cast_int (Z.of_nat (num_captions_per_image self))) in
      let st := State (variables st) (optimizer st)
                  (update_state (loss_tracker st) batch_loss)
                  (update_state (acc_tracker st) batch_acc) in
      (st, Ok (Mean_result (loss_tracker st), Mean_result (acc_tracker st)))
  end.

End Model.
Arguments t : clear implicits.
Arguments state : clear implicits.

End ImageCaptioningModel.

(** ** [LRSchedule] *)

Module LRSchedule.

Record t : Type := {
  post_warmup_learning_rate : tf.float32;
  warmup_steps : Z
}.

(** [__call__]: both branches of [tf.cond] are built from values that
    are computed before the test. *)
Definition call (self : t) (step : Z) : tf.float32 :=
  let global_step := tf.cast_float32 step in
  let warmup_steps := tf.cast_float32 (warmup_steps self) in
  let warmup_progress := tf.div global_step warmup_steps in
  let warmup_learning_rate :=
    tf.mul (post_warmup_learning_rate self) warmup_progress in
  if tf.less global_step warmup_steps
  then warmup_learning_rate
  else post_warmup_learning_rate self.

(** The quotient that [call] computes first. *)
Definition warmup_progress (self : t) (step : Z) : tf.float32 :=
  tf.div (tf.cast_float32 step) (tf.cast_float32 (warmup_steps self)).

End LRSchedule.

(** ** Greedy decoding: the two definitions of [generate_caption] *)

Inductive loop_exit : Type := EndMarker | BoundExhausted.

Inductive outcome (A : Type) : Type :=
  | Finished (how : loop_exit) (a : A)
  | Raised (e : exn)
  | OutOfFuel.
Arguments Finished {A} how a.
Arguments Raised {A} e.
Arguments OutOfFuel {A}.

(** A run of a loop: the iterations entered and how it ended. *)
Record run (A : Type) : Type := Run { iterations : nat; ending : outcome A }.
Arguments Run {A} iterations ending.
Arguments iterations {A} r.
Arguments ending {A} r.

Definition one_more {A} (r : run A) : run A :=
  Run (S (iterations r)) (ending r).

Module py_str.

(** [s.replace(old, new)] for a non-empty [old]; [skip] characters of
    a match that was just replaced are still to be passed over. *)
Fixpoint replace_from (old new : string) (skip : nat) (s : string) : string :=
  match s with
  | EmptyString => EmptyString
  | String c s' =>
      match skip with
      | S k => replace_from old new k s'
      | O =>
          if String.prefix old s
          then new +:+ replace_from old new (String.length old - 1) s'
          else String c (replace_from old new 0 s')
      end
  end.
Definition replace (s old new : string) : string := replace_from old new 0 s.

(** [sep.join(words)] *)
Fixpoint join (sep : string) (words : list string) : string :=
  match words with
  | [] => EmptyString
  | [w] => w
  | w :: ws => w +:+ sep +:+ join sep ws
  end.

End py_str.

Section Greedy.
(** The fitted vectorizer, its vocabulary and the decoder of the model
    are given.  The script reads [SEQ_LENGTH] without ever setting it:
    it is a parameter here, and the examples take it to be
    [sequence_length]. *)
Context (SEQ_LENGTH : nat).
Context (vectorization : list string → tokens2).
Context (vocab : list string).
Context (decoder : tokens2 → tensor3 → bool → option mask2 → result tensor3).

(** [dict(zip(range(len(vocab)), vocab))] *)
Definition index_lookup : gmap Z string :=
  list_to_map (zip (tf.range (length vocab)) vocab).

Definition max_decoded_sentence_length : nat := SEQ_LENGTH - 1.

(** One pass through the body of the [for] loop of the first
    definition: [None] is [break]. *)
Definition sample_token (encoded_img : tensor3) (i : nat)
    (decoded_caption : string) : result (option string) :=
  let tokenized_caption :=
    (λ row : list Z, take (length row - 1) row) <$> vectorization [decoded_caption] in
  let mask := tf.not_equal_0 tokenized_caption in
  predictions ← decoder tokenized_caption encoded_img false (Some mask);
  scores ← match predictions !! 0%nat ≫= (.!! i) with
           | Some v => Ok v
           | None => Raise (IndexError (Z.of_nat i))
           end;
  let sampled_token_index := tf.argmax scores in
  sampled_token ← match index_lookup !! sampled_token_index with
                  | Some w => Ok w
                  | None => Raise (KeyError sampled_token_index)
                  end;
  if String.eqb sampled_token "<end>" then Ok None
  else Ok (Some (decoded_caption +:+ " " +:+ sampled_token)).

Fixpoint caption_loop (encoded_img : tensor3) (range : list nat)
    (decoded_caption : string) : run string :=
  match range with
  | [] => Run 0 (Finished BoundExhausted decoded_caption)
  | i :: range' =>
      match sample_token encoded_img i decoded_caption with
      | Raise e => Run 1 (Raised e)
      | Ok None => Run 1 (Finished EndMarker decoded_caption)
      | Ok (Some decoded_caption) =>
          one_more (caption_loop encoded_img range' decoded_caption)
      end
  end.

(** The first definition, from the encoded image on; the caption it
    prints is the value. *)
Definition generate_caption (encoded_img : tensor3) : run string :=
  let r := caption_loop encoded_img (seq 0 max_decoded_sentence_length) "<start> " in
  Run (iterations r)
      match ending r with
      | Finished how decoded_caption =>
          let decoded_caption := py_str.replace decoded_caption "<start> " "" in
          Finished how (py.strip (py_str.replace decoded_caption " <end>" ""))
      | Raised e => Raised e
      | OutOfFuel => OutOfFuel
      end.

(** One pass through the body of the [while True] loop of the second
    definition: the word and the next [start_token]. *)
Definition next_word (img_embed : tensor3) (start_token : tokens2)
  : result (string * tokens2) :=
  output ← decoder start_token img_embed false None;
  let output := fmap (M:=list) (fmap (M:=list) tf.argmax) output in
  index ← match output !! 0%nat ≫= last with
          | Some k => Ok k
          | None => Raise (IndexError (-1))
          end;
  word ← match vocab !! Z.to_nat index with
         | Some w => Ok w
         | None => Raise (IndexError index)
         end;
  Ok (word, output).

Fixpoint word_loop (fuel : nat) (img_embed : tensor3) (start_token : tokens2)
    (result : list string) : run (list string) :=
  match fuel with
  | O => Run 0 OutOfFuel
  | S fuel' =>
      match next_word img_embed start_token with
      | Raise e => Run 1 (Raised e)
      | Ok (word, output) =>
          let result := result ++ [word] in
          if String.eqb word "<end>" then Run 1 (Finished EndMarker result)
          else if (SEQ_LENGTH <=? length result)%nat
          then Run 1 (Finished BoundExhausted result)
          else one_more (word_loop fuel' img_embed output result)
      end
  end.

(** The second definition, from the image embedding on. *)
Definition generate_caption' (fuel : nat) (img_embed : tensor3) : run string :=
  let start_token := vectorization ["<start>"] in
  let r := word_loop fuel img_embed start_token [] in
  Run (iterations r)
      match ending r with
      | Finished how result => Finished how (py_str.join " " result)
      | Raised e => Raised e
      | OutOfFuel => OutOfFuel
      end.

End Greedy.

(** ** The data pipeline after the loader *)

(** The caption lists that [prepare_dataset] hands to [vectorization]
    through [process_input]: the values of the mapping.  The split into
    training and validation data selects keys of the mapping and keeps
    each value as it is. *)
Definition vectorized_captions (data : gmap string (list string)) : list (list string) :=
  (map_to_list data).*2.

(** ** Example inputs *)

Definition caption_line (image_name caption : string) : string :=
  image_name +:+ String tab caption +:+ String newline EmptyString.

(** One image with one caption of five words. *)
Definition one_caption_file : list string :=
  [caption_line "a.jpg#0" "a b c d e"].

(** One image whose second caption is too short. *)
Definition short_second_caption_file : list string :=
  [caption_line "a.jpg#0" "one two three four five";
   caption_line "a.jpg#1" "too short"].

(** ** Reference definitions *)

(** The lower triangle of ones, side [L]: entry (i, j) is 1 when
    [j ≤ i] and 0 otherwise. *)
Definition lower_triangle (L : nat) : list (list Z) :=
  (λ i : nat, (λ j : nat, if bool_decide (j ≤ i)%nat then 1%Z else 0%Z) <$> seq 0 L)
  <$> seq 0 L.

(** Entry (b, i, j) of a rank-3 tensor. *)
Definition entry3 {A} (t : list (list (list A))) (b i j : nat) : option A :=
  mat ← t !! b; row ← (mat : list (list A)) !! i; (row : list A) !! j.

(** What a sum of products with a zero mask can be. *)
Definition zero_or_nan (x : tf.float32) : Prop := x = tf.zero ∨ x = tf.NaN.

(** The count of non-padding positions of a mask. *)
Definition count_valid (mask : mask2) : nat :=
  length (filter (λ valid : bool, valid = true) (concat mask)).

(** The masked loss in the words of the specification: the
    cross-entropy values, set to zero at the padding positions, summed
    and divided by the count of non-padding positions. *)
Definition masked_mean_loss (ce : tensor2) (mask : mask2) : tf.float32 :=
  tf.div
    (tf.sum (concat (tf.map2 (λ x (valid : bool), if valid then x else tf.zero) ce mask)))
    (tf.cast_int (Z.of_nat (count_valid mask))).

(** A small model: the decoder always puts all the mass on token 1, the
    loss is the 0-1 loss of the arg-max, a gradient is a matrix of ones
    and the optimizer replaces a variable by its gradient. *)
Definition toy_model : ImageCaptioningModel.t unit unit := {|
  ImageCaptioningModel.cnn_model := λ _ _, [];
  ImageCaptioningModel.cnn_variables := [1%positive];
  ImageCaptioningModel.encoder := λ _ x _, x;
  ImageCaptioningModel.encoder_trainable_variables := [2%positive];
  ImageCaptioningModel.decoder := λ _ inputs _ _ _,
    Ok ((λ row : list Z, (λ _, [tf.zero; tf.one]) <$> row) <$> inputs);
  ImageCaptioningModel.decoder_trainable_variables := [3%positive];
  ImageCaptioningModel.num_captions_per_image := 2;
  ImageCaptioningModel.image_aug := None;
  ImageCaptioningModel.loss := λ y_true y_pred,
    tf.map2 (λ (t : Z) p, if (tf.argmax p =? t)%Z then tf.zero else tf.one) y_true y_pred;
  ImageCaptioningModel.tape_gradient := λ _ _ _ vars, (λ _, [[tf.one]]) <$> vars;
  ImageCaptioningModel.optimizer_update := λ _ _ g _, g;
  ImageCaptioningModel.optimizer_step := λ u, u
|}.

(** One caption of three target positions, the last one padding, and
    the distribution the toy decoder predicts for it. *)
Definition toy_targets : tokens2 := [[1; 2; 0]%Z].
Definition toy_predictions : tensor3 :=
  [[[tf.zero; tf.one]; [tf.zero; tf.one]; [tf.zero; tf.one]]].
Definition toy_mask : mask2 := [[true; true; false]].

(** A caption whose target positions are all padding. *)
Definition padded_targets : tokens2 := [[0; 0; 0]%Z].
Definition padded_mask : mask2 := [[false; false; false]].

(** The target rate 1e-4 and the schedule with a warm-up of 100 steps. *)
Definition target_rate : Qc := Q2Qc (1 # 10000).
Definition lr_schedule_100 : LRSchedule.t :=
  {| LRSchedule.post_warmup_learning_rate := tf.Fin target_rate;
     LRSchedule.warmup_steps := 100 |}.

(** The float32 rounding of a magnitude. *)
Definition round_abs (a : Z) : Z :=
  tf.round_to_ulp (Z.max 0 (Z.log2 a - 23)) a.


(** A schedule without warm-up. *)
Definition lr_schedule_0 (post : tf.float32) : LRSchedule.t :=
  {| LRSchedule.post_warmup_learning_rate := post;
     LRSchedule.warmup_steps := 0 |}.

(** A vocabulary, a vectorizer that maps every string to the one
    token [<start>], and a decoder whose arg-max is always the word
    [a]: it never produces the end marker. *)
Definition toy_vocab : list string := [""; "[UNK]"; "<start>"; "<end>"; "a"].
Definition toy_vectorization : list string → tokens2 := λ _, [[2%Z]].
Definition never_end_decoder
  : tokens2 → tensor3 → bool → option mask2 → result tensor3 :=
  λ _ _ _ _, Ok [[[tf.zero; tf.zero; tf.zero; tf.zero; tf.one]]].

(** A decoder block made of trivial sub-layers. *)
Definition toy_decoder_block : TransformerDecoderBlock.t := {|
  TransformerDecoderBlock.embedding := λ inputs,
    (λ row : list Z, (λ _, [tf.one]) <$> row) <$> inputs;
  TransformerDecoderBlock.attention_1 := λ query _ _ _ _, query;
  TransformerDecoderBlock.attention_2 := λ query _ _ _ _, query;
  TransformerDecoderBlock.ffn_layer_1 := λ x, x;
  TransformerDecoderBlock.ffn_layer_2 := λ x, x;
  TransformerDecoderBlock.layernorm_1 := λ x, x;
  TransformerDecoderBlock.layernorm_2 := λ x, x;
  TransformerDecoderBlock.layernorm_3 := λ x _, x;
  TransformerDecoderBlock.out := λ x, x;
  TransformerDecoderBlock.dropout_1 := λ x _, x;
  TransformerDecoderBlock.dropout_2 := λ x _, x
|}.

(** A state for the toy model and a batch of one image with two
    captions. *)
Definition toy_state : ImageCaptioningModel.state unit :=
  ImageCaptioningModel.State
    (<[1%positive := [[tf.cast_int 5]]]> (<[2%positive := [[tf.cast_int 7]]]>
       (<[3%positive := [[tf.cast_int 9]]]> ∅)))
    tt
    {| ImageCaptioningModel.total := tf.zero; ImageCaptioningModel.count := tf.zero |}
    {| ImageCaptioningModel.total := tf.zero; ImageCaptioningModel.count := tf.zero |}.
Definition toy_batch : unit * list tokens2 :=
  (tt, [[[1; 1; 0]; [1; 2; 0]]]%Z).

(** ** What one pass of the loader reads off a line *)

(** The fields of a line, the key made of its first field, and the
    test on the number of words of its second field. *)
Definition line_fields (c_data : string) : list string :=
  py.split tab (py.strip_by (py.is_char newline) c_data).
Definition line_image (image_name : string) : string :=
  py.path_join "Flicker8k_Dataset"
    (py.strip (hd EmptyString (py.split "#"%char image_name))).
Definition caption_words (caption : string) : nat :=
  length (py.split_ws (py.strip (py.strip caption))).
Definition bad_length (caption : string) : bool :=
  (caption_words caption <? 5) || (sequence_length <? caption_words caption).

(** A caption between its two markers. *)
Definition wrapped (caption : string) : string :=
  "<start> " +:+ caption +:+ " <end>".

(** Every character of a string passes the test. *)
Fixpoint all_chars (p : ascii → bool) (s : string) : bool :=
  match s with
  | EmptyString => true
  | String c s' => p c && all_chars p s'
  end.

(** The string made of the words, each after its gap, and a trailing
    gap: [g1 w1 g2 w2 ... gn wn trail]. *)
Fixpoint rejoin (gaps words : list string) (trail : string) : string :=
  match gaps, words with
  | g :: gaps', w :: words' => g +:+ w +:+ rejoin gaps' words' trail
  | _, _ => trail
  end.

(** What the loader keeps true of its state: the texts for the
    tokenizer carry both markers; a key of the mapping ends with [jpg],
    its captions are there, have an accepted number of words, and each
    has its wrapped copy among the texts. *)
Definition is_wrapped (text : string) : Prop :=
  py.startswith text "<start> " = true ∧ py.endswith text " <end>" = true.
Definition accepted_length (caption : string) : Prop :=
  5 ≤ length (py.split_ws caption) ≤ sequence_length.
Definition loader_inv (mapped : gmap string (list string)) (texts : list string) : Prop :=
  Forall is_wrapped texts
  ∧ ∀ image caps, mapped !! image = Some caps →
      py.endswith image "jpg" = true
      ∧ caps ≠ []
      ∧ Forall accepted_length caps
      ∧ ∀ c, c ∈ caps → wrapped c ∈ texts.

(** The valid positions at which the arg-max of the prediction is the
    target: the numerator of the accuracy. *)
Definition correct_positions (y_true : tokens2) (y_pred : tensor3) (mask : mask2) : mask2 :=
  tf.map2 andb mask
    (tf.map2 Z.eqb y_true (fmap (M:=list) (fmap (M:=list) tf.argmax) y_pred)).

(** ** [train_val_split] *)

(** [{name: caption_data[name] for name in names}]; every name is a key
    of [caption_data] there. *)
Definition select_keys (caption_data : gmap string (list string)) (names : list string)
  : gmap string (list string) :=
  list_to_map ((λ name, (name, caption_data !!! name)) <$> names).

(** [shuffle] is what [np.random.shuffle] makes of the list of keys, a
    rearrangement of it; [int(len(caption_data) * 0.8)] is taken in
    exact arithmetic, four fifths rounded down. *)
Definition train_val_split (shuffle : list string → list string)
    (caption_data : gmap string (list string))
  : gmap string (list string) * gmap string (list string) :=
  let list_of_images := shuffle (map_to_list caption_data).*1 in
  let train_size := size caption_data * 4 / 5 in
  let train_data := select_keys caption_data (take train_size list_of_images) in
  let test_data := select_keys caption_data (drop train_size list_of_images) in
  (train_data, test_data).

(** ** [standardize] *)

Module standardize_text.

Definition double_quote : ascii := ascii_of_nat 34.

(** The punctuation string of the source, and what the two [replace]
    calls leave of it. *)
Definition punctuation : string :=
  String "!" (String double_quote "#$%&'()*+,-./:;<=>?@[\]^_`{|}~").
Definition strip_chars : string :=
  py_str.replace (py_str.replace punctuation "<" "") ">" "".

(** [tf.strings.lower] with the default encoding: the letters A to Z
    only. *)
Definition lower_char (c : ascii) : ascii :=
  let n := nat_of_ascii c in
  if (65 <=? n) && (n <=? 90) then ascii_of_nat (n + 32) else c.
Fixpoint lower (s : string) : string :=
  match s with
  | EmptyString => EmptyString
  | String c s' => String (lower_char c) (lower s')
  end.

Fixpoint in_chars (c : ascii) (chars : string) : bool :=
  match chars with
  | EmptyString => false
  | String x chars' => Ascii.eqb c x || in_chars c chars'
  end.

(** [tf.strings.regex_replace(s, "[chars]", "")], the class holding
    the escaped characters of [chars]: every one of them is removed. *)
Fixpoint remove_chars (chars : string) (s : string) : string :=
  match s with
  | EmptyString => EmptyString
  | String c s' =>
      if in_chars c chars then remove_chars chars s'
      else String c (remove_chars chars s')
  end.

Definition standardize (input_string : string) : string :=
  remove_chars strip_chars (lower input_string).

End standardize_text.

(** * Properties *)

(** ** The caption loader *)

(** C3: the captions that reach the vectorizer are not wrapped.  On the
    file with the single line [a.jpg#0<TAB>a b c d e] the loader puts
    the bare caption into the mapping, and so into the data pipeline,
    while only the copy kept in [text_data] carries the markers. *)
Theorem mapped_captions_not_wrapped :
  ∃ m t,
    map_image_caption one_caption_file = Ok (m, t)
    ∧ m !! "Flicker8k_Dataset/a.jpg" = Some ["a b c d e"]
    ∧ vectorized_captions m = [["a b c d e"]]
    ∧ py.startswith "a b c d e" "<start>" = false
    ∧ py.endswith "a b c d e" "<end>" = false
    ∧ t = ["<start> a b c d e <end>"].
Proof.
  eexists _, _. split; [vm_compute; reflexivity|].
  repeat split; vm_compute; reflexivity.
Qed.

(** C10: there is a caption file in which a caption of valid length
    precedes a caption of invalid length of the same image; the image is
    absent from the returned mapping and its valid caption is still in
    the returned [text_data]. *)
Theorem text_data_keeps_skipped_image :
  ∃ caption_data image caption m t,
    caption_data = [caption_line "a.jpg#0" caption; caption_line "a.jpg#1" "too short"]
    ∧ image = "Flicker8k_Dataset/a.jpg"
    ∧ length (py.split_ws caption) = 5%nat
    ∧ length (py.split_ws "too short") = 2%nat
    ∧ map_image_caption caption_data = Ok (m, t)
    ∧ m !! image = None
    ∧ ("<start> " +:+ caption +:+ " <end>") ∈ t.
Proof.
  exists short_second_caption_file, "Flicker8k_Dataset/a.jpg",
    "one two three four five".
  eexists _, _. split; [reflexivity|]. split; [reflexivity|].
  split; [reflexivity|]. split; [reflexivity|].
  split; [vm_compute; reflexivity|].
  split; [vm_compute; reflexivity|].
  apply list_elem_of_singleton. reflexivity.
Qed.

(** ** The decoder block *)

(** With a padding mask the forward pass returns. *)
Lemma decoder_call_with_mask (self : DecoderClass.t) inputs encoder_outputs training mask :
  ∃ preds,
    DecoderClass.call self inputs encoder_outputs training (Some mask) = Ok preds.
Proof. eexists. reflexivity. Qed.

(** C1: without a padding mask the forward pass of either decoder block
    raises [UnboundLocalError] on [combined_mask], whatever the
    sub-layers, the tokens and the encoder output are: no distribution is
    returned and no attention is computed. *)
Theorem decoder_call_without_mask :
  (∀ (self : DecoderClass.t) inputs encoder_outputs training,
     DecoderClass.call self inputs encoder_outputs training None
     = Raise (UnboundLocalError "combined_mask"))
  ∧ (∀ (self : TransformerDecoderBlock.t) inputs encoder_outputs training,
       TransformerDecoderBlock.call self inputs encoder_outputs training None
       = Raise (UnboundLocalError "combined_mask")).
Proof. split; intros; reflexivity. Qed.

Lemma repeat_along_1 {A} (l : list A) : tf.repeat_along 1 l = l.
Proof. unfold tf.repeat_along. simpl. apply app_nil_r. Qed.

Lemma repeat_along_singleton {A} n (x : A) : tf.repeat_along n [x] = replicate n x.
Proof. unfold tf.repeat_along. induction n as [|n IH]; simpl; [done|]. by rewrite IH. Qed.

Section TensorLemmas.
Context {A : Type}.
Implicit Types (l : list A) (mat : list (list A)).

Lemma chunks_concat k mat :
  Forall (λ row, length row = k) mat →
  tf.chunks (length mat) k (concat mat) = mat.
Proof.
  induction 1 as [|row mat Hrow _ IH]; [done|].
  subst k. simpl. by rewrite take_app_length, drop_app_length, IH.
Qed.

Lemma length_concat_uniform k mat :
  Forall (λ row, length row = k) mat → length (concat mat) = length mat * k.
Proof. induction 1 as [|row mat Hrow _ IH]; simpl; [done|]. rewrite length_app. lia. Qed.

(** A square matrix survives the reshape to one slice and the tiling
    along the batch axis as [B] copies of itself. *)
Lemma tile_reshape_square B L mat :
  length mat = L → Forall (λ row, length row = L) mat →
  tf.tile3 (tf.reshape3 mat 1 L L) B 1 1 = replicate B mat.
Proof.
  intros Hlen Hrows.
  assert (tf.reshape3 mat 1 L L = [mat]) as ->.
  { unfold tf.reshape3. cbn [tf.chunks fmap list_fmap].
    rewrite firstn_all2 by (rewrite (length_concat_uniform L) by done; lia).
    rewrite <- Hlen at 1. by rewrite chunks_concat. }
  unfold tf.tile3. cbn [fmap list_fmap].
  rewrite repeat_along_1.
  rewrite (list_fmap_ext _ id mat) by (intros; apply repeat_along_1).
  rewrite list_fmap_id. apply repeat_along_singleton.
Qed.
End TensorLemmas.

Lemma greater_equal_range L :
  tf.cast_mask_int (tf.greater_equal (tf.column (tf.range L)) (tf.range L))
  = lower_triangle L.
Proof.
  unfold tf.cast_mask_int, tf.greater_equal, tf.column, tf.range, lower_triangle.
  rewrite <- !list_fmap_compose. apply list_fmap_ext. intros _ i _. simpl.
  rewrite <- !list_fmap_compose. apply list_fmap_ext. intros _ j _. simpl.
  unfold tf.cast_bool_int. case_bool_decide; destruct (Z.geb_spec (Z.of_nat i) (Z.of_nat j)); (done || lia).
Qed.

Lemma lower_triangle_shape L :
  length (lower_triangle L) = L
  ∧ Forall (λ row, length row = L) (lower_triangle L).
Proof.
  unfold lower_triangle. split.
  - by rewrite length_fmap, length_seq.
  - apply Forall_fmap, Forall_forall. intros i _. simpl.
    by rewrite length_fmap, length_seq.
Qed.

Lemma get_causal_attention_mask_replicate B L D :
  DecoderClass.get_causal_attention_mask [B; L; D] = replicate B (lower_triangle L).
Proof.
  unfold DecoderClass.get_causal_attention_mask. cbn [lookup_total list_lookup_total app].
  rewrite greater_equal_range.
  destruct (lower_triangle_shape L). by apply tile_reshape_square.
Qed.

Lemma entry3_replicate {A} (B : nat) (mat : list (list A)) b i j :
  b < B → entry3 (replicate B mat) b i j = mat !! i ≫= (.!! j).
Proof. intros Hb. unfold entry3. by rewrite lookup_replicate_2. Qed.

Lemma lower_triangle_entry L i j :
  i < L → j < L →
  lower_triangle L !! i ≫= (.!! j) = Some (if bool_decide (j ≤ i) then 1%Z else 0%Z).
Proof.
  intros Hi Hj. unfold lower_triangle.
  rewrite list_lookup_fmap, lookup_seq_lt by done. simpl.
  by rewrite list_lookup_fmap, lookup_seq_lt.
Qed.

(** The second copy of the method is the same function. *)
Lemma get_causal_attention_mask_copies input_shape :
  TransformerDecoderBlock.get_causal_attention_mask input_shape
  = DecoderClass.get_causal_attention_mask input_shape.
Proof. reflexivity. Qed.

(** C2: for an input of shape (B, L, D) the causal mask has shape
    (B, L, L); its entry at (b, i, j) is 1 exactly when [j ≤ i], and 0
    otherwise; the slices of all batch elements are the same. *)
Theorem causal_mask_lower_triangular (B L D : nat) :
  let M := DecoderClass.get_causal_attention_mask [B; L; D] in
  length M = B
  ∧ (∀ b mat, M !! b = Some mat →
       length mat = L ∧ Forall (λ row, length row = L) mat)
  ∧ (∀ b i j, b < B → i < L → j < L →
       ∃ v, entry3 M b i j = Some v ∧ (v = 1%Z ↔ j ≤ i) ∧ (v = 0%Z ∨ v = 1%Z))
  ∧ (∀ b b', b < B → b' < B → M !! b = M !! b').
Proof.
  intros M. subst M. rewrite get_causal_attention_mask_replicate.
  split; [apply length_replicate|]. split; [|split].
  - intros b mat [-> _]%lookup_replicate. apply lower_triangle_shape.
  - intros b i j Hb Hi Hj. rewrite entry3_replicate, lower_triangle_entry by done.
    eexists; split; [done|]. case_bool_decide; split; (lia || auto).
  - intros b b' Hb Hb'. by rewrite !lookup_replicate_2.
Qed.

Lemma causal_mask_lower_triangular_witness :
  ∃ v, entry3 (DecoderClass.get_causal_attention_mask [2; 3; 4]) 1 2 1 = Some v
       ∧ (v = 1%Z ↔ 1 ≤ 2) ∧ (v = 0%Z ∨ v = 1%Z).
Proof.
  apply (proj1 (proj2 (proj2 (causal_mask_lower_triangular 2 3 4)))); lia.
Defined.

(** ** Arithmetic of [tf.float32] *)

Lemma cast_int_compare_0 z : (Q2Qc (inject_Z z) ?= 0)%Qc = (z ?= 0)%Z.
Proof.
  unfold Qccompare. simpl. rewrite <- Qred_compare.
  unfold Qcompare. simpl. by rewrite Z.mul_1_r.
Qed.

Lemma cast_int_succ z : tf.add (tf.cast_int z) tf.one = tf.cast_int (z + 1).
Proof.
  unfold tf.cast_int, tf.one. simpl. f_equal. apply Qc_is_canon. simpl.
  rewrite !Qred_correct, inject_Z_plus. reflexivity.
Qed.

Lemma mul_one_r x : tf.mul x tf.one = x.
Proof.
  destruct x as [q|s|]; simpl; [|done..]. by rewrite Qcmult_1_r.
Qed.

Lemma mul_zero_r_finite q : tf.mul (tf.Fin q) tf.zero = tf.zero.
Proof. simpl. by rewrite Qcmult_0_r. Qed.

Lemma div_zero_zero : tf.div tf.zero tf.zero = tf.NaN.
Proof. reflexivity. Qed.

Lemma div_nan_l y : tf.div tf.NaN y = tf.NaN.
Proof. by destruct y. Qed.

Lemma sum_finite v : Forall tf.is_finite v → tf.is_finite (tf.sum v).
Proof.
  induction 1 as [|x v Hx _ IH]; simpl; [done|].
  destruct x; [|done..]. by destruct (tf.sum v).
Qed.

Lemma cast_int_0 : tf.cast_int 0 = tf.zero.
Proof. reflexivity. Qed.

Lemma add_one_cast_int z : tf.add tf.one (tf.cast_int z) = tf.cast_int (Z.succ z).
Proof.
  unfold tf.cast_int, tf.one. simpl. f_equal. apply Qc_is_canon. simpl.
  rewrite !Qred_correct. unfold Z.succ. rewrite inject_Z_plus. ring.
Qed.

Lemma add_zero_l x : tf.add tf.zero x = x.
Proof. destruct x as [q|s|]; simpl; [|done..]. by rewrite Qcplus_0_l. Qed.

(** ** The masked loss and accuracy *)

Lemma sum_zero_or_nan v : Forall zero_or_nan v → zero_or_nan (tf.sum v).
Proof.
  induction 1 as [|x v Hx _ IH]; simpl; [by left|].
  destruct Hx as [-> | ->]; [|by right].
  rewrite add_zero_l. exact IH.
Qed.

Lemma div_zero_or_nan x : zero_or_nan x → tf.div x tf.zero = tf.NaN.
Proof. by intros [-> | ->]. Qed.

Lemma mul_cast_row (row : list tf.float32) (m : list bool) :
  Forall tf.is_finite row →
  zip_with tf.mul row (tf.cast_bool <$> m)
  = zip_with (λ x (valid : bool), if valid then x else tf.zero) row m.
Proof.
  intros Hrow. revert m.
  induction Hrow as [|x row Hx _ IH]; intros [|valid m]; simpl; [done..|].
  rewrite IH. f_equal. destruct x as [q| |]; [|done..].
  destruct valid; [apply mul_one_r | apply mul_zero_r_finite].
Qed.

Lemma mul_cast_mask (ce : tensor2) (mask : mask2) :
  Forall (Forall tf.is_finite) ce →
  tf.map2 tf.mul ce (tf.cast_mask mask)
  = tf.map2 (λ x (valid : bool), if valid then x else tf.zero) ce mask.
Proof.
  intros Hce. revert mask. unfold tf.map2, tf.cast_mask.
  induction Hce as [|row ce Hrow _ IH]; intros [|m mask]; simpl; [done..|].
  by rewrite IH, mul_cast_row.
Qed.

Lemma zeroed_finite (ce : tensor2) (mask : mask2) :
  Forall (Forall tf.is_finite) ce →
  Forall tf.is_finite
    (concat (tf.map2 (λ x (valid : bool), if valid then x else tf.zero) ce mask)).
Proof.
  intros Hce. apply Forall_concat. revert mask. unfold tf.map2.
  induction Hce as [|row ce Hrow _ IH]; intros [|m mask]; simpl; constructor; [|done].
  clear IH. revert m.
  induction Hrow as [|x row Hx _ IH]; intros [|[] m]; simpl; constructor; done.
Qed.

Lemma sum_cast_bool (l : list bool) :
  tf.sum (tf.cast_bool <$> l)
  = tf.cast_int (Z.of_nat (length (filter (λ valid : bool, valid = true) l))).
Proof.
  induction l as [|valid l IH]; [done|].
  rewrite fmap_cons.
  change (tf.sum (tf.cast_bool valid :: (tf.cast_bool <$> l)))
    with (tf.add (tf.cast_bool valid) (tf.sum (tf.cast_bool <$> l))).
  rewrite IH. destruct valid.
  - rewrite filter_cons_True by done. simpl length.
    by rewrite Nat2Z.inj_succ, <- add_one_cast_int.
  - rewrite filter_cons_False by done. apply add_zero_l.
Qed.

Lemma concat_cast_mask (mask : mask2) :
  concat (tf.cast_mask mask) = tf.cast_bool <$> concat mask.
Proof.
  unfold tf.cast_mask. induction mask as [|m mask IH]; [done|].
  rewrite fmap_cons. cbn [concat]. by rewrite IH, fmap_app.
Qed.

Lemma reduce_sum_cast_mask (mask : mask2) :
  tf.reduce_sum (tf.cast_mask mask) = tf.cast_int (Z.of_nat (count_valid mask)).
Proof. unfold tf.reduce_sum. rewrite concat_cast_mask. apply sum_cast_bool. Qed.

Lemma div_finite_pos q n :
  0 < n → ∃ r, tf.div (tf.Fin q) (tf.cast_int (Z.of_nat n)) = tf.Fin r.
Proof.
  intros Hn. unfold tf.cast_int. simpl. rewrite cast_int_compare_0.
  destruct (Z.compare_spec (Z.of_nat n) 0); [lia|lia|]. eauto.
Qed.

(** C4: when every cross-entropy value is a finite number and the mask
    has a valid position, [calculate_loss] is the sum of the
    cross-entropy values zeroed at the padding positions divided by the
    count of the non-padding positions, and it is a finite number. *)
Theorem calculate_loss_masked_mean {images opt_state}
    (self : ImageCaptioningModel.t images opt_state)
    (y_true : tokens2) (y_pred : tensor3) (mask : mask2) :
  Forall (Forall tf.is_finite) (ImageCaptioningModel.loss self y_true y_pred) →
  0 < count_valid mask →
  ImageCaptioningModel.calculate_loss self y_true y_pred mask
  = masked_mean_loss (ImageCaptioningModel.loss self y_true y_pred) mask
  ∧ tf.is_finite (ImageCaptioningModel.calculate_loss self y_true y_pred mask).
Proof.
  intros Hce Hvalid.
  assert (ImageCaptioningModel.calculate_loss self y_true y_pred mask
          = masked_mean_loss (ImageCaptioningModel.loss self y_true y_pred) mask) as Heq.
  { unfold ImageCaptioningModel.calculate_loss, masked_mean_loss, tf.reduce_sum at 1.
    by rewrite mul_cast_mask, reduce_sum_cast_mask. }
  split; [exact Heq|]. rewrite Heq. unfold masked_mean_loss.
  pose proof (sum_finite _ (zeroed_finite _ mask Hce)) as Hsum.
  destruct (tf.sum _) as [q| |]; [|done..].
  destruct (div_finite_pos q _ Hvalid) as [r ->]. done.
Qed.

Lemma calculate_loss_masked_mean_witness :
  ImageCaptioningModel.calculate_loss toy_model toy_targets toy_predictions toy_mask
  = masked_mean_loss
      (ImageCaptioningModel.loss toy_model toy_targets toy_predictions) toy_mask
  ∧ tf.is_finite
      (ImageCaptioningModel.calculate_loss toy_model toy_targets toy_predictions toy_mask).
Proof.
  apply calculate_loss_masked_mean.
  - vm_compute. repeat constructor.
  - vm_compute. lia.
Defined.

Lemma count_valid_0 (mask : mask2) :
  count_valid mask = 0 → Forall (Forall (λ valid, valid = false)) mask.
Proof.
  unfold count_valid. induction mask as [|m mask IH]; [done|].
  cbn [concat]. rewrite filter_app, length_app. intros Hlen.
  constructor; [|apply IH; lia].
  assert (length (filter (λ valid : bool, valid = true) m) = 0) as Hm by lia.
  clear -Hm. induction m as [|[] m IH]; [done| |].
  - by rewrite filter_cons_True in Hm.
  - rewrite filter_cons_False in Hm by done. constructor; auto.
Qed.

Lemma mul_padding_row (row : list tf.float32) (m : list bool) :
  Forall (λ valid, valid = false) m →
  Forall zero_or_nan (zip_with tf.mul row (tf.cast_bool <$> m)).
Proof.
  intros Hm. revert row.
  induction Hm as [|valid m -> _ IH]; intros [|x row]; simpl; [done..|].
  constructor; [|apply IH].
  destruct x as [q|s|]; [left; apply mul_zero_r_finite|by right..].
Qed.

Lemma and_padding_row (m acc : list bool) :
  Forall (λ valid, valid = false) m →
  Forall zero_or_nan (tf.cast_bool <$> zip_with andb m acc).
Proof.
  intros Hm. revert acc.
  induction Hm as [|valid m -> _ IH]; intros [|x acc]; simpl; [done..|].
  constructor; [by left|apply IH].
Qed.

Lemma mul_padding_mask (ce : tensor2) (mask : mask2) :
  Forall (Forall (λ valid, valid = false)) mask →
  Forall (Forall zero_or_nan) (tf.map2 tf.mul ce (tf.cast_mask mask)).
Proof.
  intros Hmask. unfold tf.map2, tf.cast_mask. revert ce.
  induction Hmask as [|m mask Hm _ IH]; intros [|row ce]; simpl; [done..|].
  constructor; [by apply mul_padding_row|apply IH].
Qed.

Lemma and_padding_mask (acc : mask2) (mask : mask2) :
  Forall (Forall (λ valid, valid = false)) mask →
  Forall (Forall zero_or_nan) (tf.cast_mask (tf.map2 andb mask acc)).
Proof.
  intros Hmask. unfold tf.map2, tf.cast_mask. revert acc.
  induction Hmask as [|m mask Hm _ IH]; intros [|row acc]; simpl; [done..|].
  constructor; [by apply and_padding_row|apply IH].
Qed.

(** C7, as the code has it: when the mask has no valid position
    [calculate_loss] and [calculate_accuracy] divide by the zero sum of
    the mask without any guard, and both are NaN. *)
Theorem fully_padded_division_unguarded {images opt_state}
    (self : ImageCaptioningModel.t images opt_state)
    (y_true : tokens2) (y_pred : tensor3) (mask : mask2) :
  count_valid mask = 0 →
  tf.reduce_sum (tf.cast_mask mask) = tf.zero
  ∧ ImageCaptioningModel.calculate_loss self y_true y_pred mask = tf.NaN
  ∧ ImageCaptioningModel.calculate_accuracy self y_true y_pred mask = tf.NaN.
Proof.
  intros Hcount. pose proof (count_valid_0 mask Hcount) as Hmask.
  assert (tf.reduce_sum (tf.cast_mask mask) = tf.zero) as Hden.
  { by rewrite reduce_sum_cast_mask, Hcount. }
  split; [exact Hden|].
  unfold ImageCaptioningModel.calculate_loss, ImageCaptioningModel.calculate_accuracy.
  rewrite Hden. split; apply div_zero_or_nan, sum_zero_or_nan, Forall_concat.
  - by apply mul_padding_mask.
  - by apply and_padding_mask.
Qed.

Lemma fully_padded_division_unguarded_witness :
  tf.reduce_sum (tf.cast_mask padded_mask) = tf.zero
  ∧ ImageCaptioningModel.calculate_loss toy_model padded_targets toy_predictions
      padded_mask = tf.NaN
  ∧ ImageCaptioningModel.calculate_accuracy toy_model padded_targets toy_predictions
      padded_mask = tf.NaN.
Proof. apply fully_padded_division_unguarded. reflexivity. Defined.

(** C7, as the specification has it, fails: on a caption whose three
    target positions are all padding the loss and the accuracy are NaN
    and not a zero contribution. *)
Lemma fully_padded_not_zero :
  ImageCaptioningModel.calculate_loss toy_model padded_targets toy_predictions
    padded_mask = tf.NaN
  ∧ ImageCaptioningModel.calculate_loss toy_model padded_targets toy_predictions
      padded_mask ≠ tf.zero
  ∧ ImageCaptioningModel.calculate_accuracy toy_model padded_targets toy_predictions
      padded_mask = tf.NaN
  ∧ ImageCaptioningModel.calculate_accuracy toy_model padded_targets toy_predictions
      padded_mask ≠ tf.zero.
Proof.
  assert (ImageCaptioningModel.calculate_loss toy_model padded_targets
            toy_predictions padded_mask = tf.NaN) as Hl by (vm_compute; reflexivity).
  assert (ImageCaptioningModel.calculate_accuracy toy_model padded_targets
            toy_predictions padded_mask = tf.NaN) as Ha by (vm_compute; reflexivity).
  rewrite Hl, Ha. repeat split; discriminate.
Qed.

(** ** The learning-rate schedule *)

Lemma cast_int_compare a b :
  (Q2Qc (inject_Z a) ?= Q2Qc (inject_Z b))%Qc = (a ?= b)%Z.
Proof.
  unfold Qccompare. simpl. rewrite <- Qred_compare.
  unfold Qcompare. simpl. by rewrite !Z.mul_1_r.
Qed.

Lemma less_cast_int a b : tf.less (tf.cast_int a) (tf.cast_int b) = bool_decide (a < b)%Z.
Proof.
  unfold tf.less, tf.cast_int. rewrite cast_int_compare.
  destruct (Z.compare_spec a b); case_bool_decide; (done || lia).
Qed.

Local Open Scope Z_scope.

Lemma round_to_ulp_mono e a b :
  0 <= e -> 0 <= a <= b -> tf.round_to_ulp e a <= tf.round_to_ulp e b.
Proof.
  intros He Hab. unfold tf.round_to_ulp.
  assert (0 < 2 ^ e) as Hu by (apply Z.pow_pos_nonneg; lia).
  generalize dependent (2 ^ e). intros u Hu.
  pose proof (Z.div_mod a u ltac:(lia)) as Ha.
  pose proof (Z.div_mod b u ltac:(lia)) as Hb.
  pose proof (Z.mod_pos_bound a u Hu) as Hra.
  pose proof (Z.mod_pos_bound b u Hu) as Hrb.
  assert (a / u <= b / u) as Hm by (apply Z.div_le_mono; lia).
  destruct (Z.eq_dec (a / u) (b / u)) as [Heq|Hne].
  - rewrite <- Heq in *.
    assert (a mod u <= b mod u) as Hr by lia.
    destruct (Z.ltb_spec (2 * (a mod u)) u), (Z.ltb_spec (2 * (b mod u)) u),
      (Z.ltb_spec u (2 * (a mod u))), (Z.ltb_spec u (2 * (b mod u))),
      (Z.even (a / u)); nia.
  - assert ((a / u + 1) * u <= b / u * u) by nia.
    destruct (Z.ltb_spec (2 * (a mod u)) u), (Z.ltb_spec (2 * (b mod u)) u),
      (Z.ltb_spec u (2 * (a mod u))), (Z.ltb_spec u (2 * (b mod u))),
      (Z.even (a / u)), (Z.even (b / u)); nia.
Qed.

Lemma round_to_ulp_multiple e k :
  0 <= e -> tf.round_to_ulp e (k * 2 ^ e) = k * 2 ^ e.
Proof.
  intros He. unfold tf.round_to_ulp.
  assert (0 < 2 ^ e) as Hu by (apply Z.pow_pos_nonneg; lia).
  rewrite Z.mod_mul, Z.div_mul by lia.
  destruct (Z.ltb_spec (2 * 0) (2 ^ e)); [done|lia].
Qed.

Lemma round_to_ulp_0 e : 0 <= e -> tf.round_to_ulp e 0 = 0.
Proof. intros He. apply (round_to_ulp_multiple e 0 He). Qed.

Lemma round_abs_binade a :
  0 < a -> 2 ^ Z.log2 a <= round_abs a <= 2 ^ (Z.log2 a + 1).
Proof.
  intros Ha. unfold round_abs.
  pose proof (Z.log2_nonneg a) as Hk.
  destruct (Z.log2_spec a Ha) as [Hlo Hhi].
  set (k := Z.log2 a) in *. set (e := Z.max 0 (k - 23)).
  assert (0 <= e <= k) as He by lia.
  assert (2 ^ k = 2 ^ (k - e) * 2 ^ e) as Hk2.
  { rewrite <- Z.pow_add_r by lia. f_equal. lia. }
  assert (2 ^ (k + 1) = 2 ^ (k + 1 - e) * 2 ^ e) as Hk3.
  { rewrite <- Z.pow_add_r by lia. f_equal. lia. }
  replace (Z.succ k) with (k + 1) in Hhi by lia.
  assert (0 < 2 ^ k) by (apply Z.pow_pos_nonneg; lia).
  pose proof (round_to_ulp_mono e (2 ^ k) a ltac:(lia) ltac:(lia)) as H1.
  pose proof (round_to_ulp_mono e a (2 ^ (k + 1)) ltac:(lia) ltac:(lia)) as H2.
  rewrite Hk2, round_to_ulp_multiple, <- Hk2 in H1 by lia.
  rewrite Hk3, round_to_ulp_multiple, <- Hk3 in H2 by lia.
  lia.
Qed.

Lemma round_abs_0 : round_abs 0 = 0.
Proof. reflexivity. Qed.

Lemma round_abs_nonneg a : 0 <= a -> 0 <= round_abs a.
Proof.
  intros Ha. destruct (Z.eq_dec a 0) as [->|Hne]; [by rewrite round_abs_0|].
  pose proof (round_abs_binade a ltac:(lia)) as [Hlo _].
  pose proof (Z.pow_pos_nonneg 2 (Z.log2 a) ltac:(lia) (Z.log2_nonneg a)). lia.
Qed.

Lemma round_abs_pos a : 0 < a -> 0 < round_abs a.
Proof.
  intros Ha. pose proof (round_abs_binade a Ha) as [Hlo _].
  pose proof (Z.pow_pos_nonneg 2 (Z.log2 a) ltac:(lia) (Z.log2_nonneg a)). lia.
Qed.

Lemma round_abs_mono a b : 0 <= a <= b -> round_abs a <= round_abs b.
Proof.
  intros Hab. destruct (Z.eq_dec a 0) as [->|Hne].
  { rewrite round_abs_0. apply round_abs_nonneg. lia. }
  pose proof (Z.log2_le_mono a b ltac:(lia)) as Hlog.
  destruct (Z.eq_dec (Z.log2 a) (Z.log2 b)) as [Heq|Hlt].
  - unfold round_abs. rewrite Heq. apply round_to_ulp_mono; lia.
  - pose proof (round_abs_binade a ltac:(lia)) as [_ Ha].
    pose proof (round_abs_binade b ltac:(lia)) as [Hb _].
    pose proof (Z.pow_le_mono_r 2 (Z.log2 a + 1) (Z.log2 b) ltac:(lia) ltac:(lia)). lia.
Qed.

Lemma round_abs_exact a : 0 <= a <= 2 ^ 24 -> round_abs a = a.
Proof.
  intros Ha. unfold round_abs.
  destruct (Z.eq_dec a (2 ^ 24)) as [->|Hne].
  - reflexivity.
  - assert (Z.log2 a <= 23) as Hlog.
    { destruct (Z.eq_dec a 0) as [->|H0]; [done|].
      apply Z.lt_succ_r, Z.log2_lt_pow2; change (Z.succ 23) with 24; lia. }
    rewrite Z.max_l by lia.
    pose proof (round_to_ulp_multiple 0 a ltac:(lia)) as H.
    change (2 ^ 0) with 1 in H. by rewrite Z.mul_1_r in H.
Qed.

Lemma round_float32_mono z z' : z <= z' -> tf.round_float32 z <= tf.round_float32 z'.
Proof.
  intros Hz. unfold tf.round_float32. fold (round_abs (Z.abs z)) (round_abs (Z.abs z')).
  pose proof (round_abs_nonneg (Z.abs z) (Z.abs_nonneg z)).
  pose proof (round_abs_nonneg (Z.abs z') (Z.abs_nonneg z')).
  destruct (Z.sgn_spec z) as [[? ->]|[[? ->]|[? ->]]],
           (Z.sgn_spec z') as [[? ->]|[[? ->]|[? ->]]]; try lia.
  - pose proof (round_abs_mono (Z.abs z) (Z.abs z') ltac:(lia)). lia.
  - pose proof (round_abs_mono (Z.abs z') (Z.abs z) ltac:(lia)). lia.
Qed.

Lemma round_float32_exact z : Z.abs z <= 2 ^ 24 -> tf.round_float32 z = z.
Proof.
  intros Hz. unfold tf.round_float32. fold (round_abs (Z.abs z)).
  rewrite round_abs_exact by lia. lia.
Qed.

Lemma round_float32_sign z : (tf.round_float32 z ?= 0) = (z ?= 0).
Proof.
  unfold tf.round_float32. fold (round_abs (Z.abs z)).
  pose proof (round_abs_pos (Z.abs z)) as Hpos.
  destruct (Z.compare_spec (Z.sgn z * round_abs (Z.abs z)) 0),
    (Z.compare_spec z 0); try done;
    destruct (Z.sgn_spec z) as [[Hz Hs]|[[Hz Hs]|[Hz Hs]]]; rewrite Hs in *; lia.
Qed.

Local Close Scope Z_scope.

Lemma less_cast_float32 a b :
  tf.less (tf.cast_float32 a) (tf.cast_float32 b)
  = bool_decide (tf.round_float32 a < tf.round_float32 b)%Z.
Proof. apply less_cast_int. Qed.

Lemma call_warmup_rounded (target : Qc) (w s : Z) :
  (tf.round_float32 s < tf.round_float32 w)%Z → (0 < tf.round_float32 w)%Z →
  LRSchedule.call {| LRSchedule.post_warmup_learning_rate := tf.Fin target;
                     LRSchedule.warmup_steps := w |} s
  = tf.Fin (target * Q2Qc (inject_Z (tf.round_float32 s))
            / Q2Qc (inject_Z (tf.round_float32 w))).
Proof.
  intros Hs Hw. unfold LRSchedule.call. cbn [LRSchedule.warmup_steps
    LRSchedule.post_warmup_learning_rate].
  rewrite less_cast_float32, bool_decide_eq_true_2 by done.
  unfold tf.cast_float32, tf.cast_int, tf.div. rewrite cast_int_compare_0.
  destruct (Z.compare_spec (tf.round_float32 w) 0); [lia|lia|].
  cbn [tf.mul]. f_equal. unfold Qcdiv. ring.
Qed.


Lemma call_constant_rounded (post : tf.float32) (w s : Z) :
  (tf.round_float32 w ≤ tf.round_float32 s)%Z →
  LRSchedule.call {| LRSchedule.post_warmup_learning_rate := post;
                     LRSchedule.warmup_steps := w |} s
  = post.
Proof.
  intros Hs. unfold LRSchedule.call. cbn [LRSchedule.warmup_steps
    LRSchedule.post_warmup_learning_rate].
  by rewrite less_cast_float32, bool_decide_eq_false_2 by lia.
Qed.

Lemma call_constant (post : tf.float32) (w s : Z) :
  (w ≤ s)%Z →
  LRSchedule.call {| LRSchedule.post_warmup_learning_rate := post;
                     LRSchedule.warmup_steps := w |} s
  = post.
Proof. intros Hs. by apply call_constant_rounded, round_float32_mono. Qed.




(** C8, as the code has it: without warm-up the schedule still forms
    the quotient step / 0, which is NaN at step 0 and +inf afterwards
    and raises nothing; the conditional drops it, and at every step
    s ≥ 0 the schedule is the target rate. *)
Theorem lr_schedule_no_warmup (post : tf.float32) (s : Z) :
  (0 ≤ s)%Z →
  LRSchedule.call (lr_schedule_0 post) s = post
  ∧ LRSchedule.warmup_progress (lr_schedule_0 post) s
    = (if (s =? 0)%Z then tf.NaN else tf.Inf false).
Proof.
  intros Hs. split; [apply call_constant; done|].
  unfold LRSchedule.warmup_progress, lr_schedule_0, tf.div, tf.cast_float32, tf.cast_int.
  cbn [LRSchedule.warmup_steps]. rewrite !cast_int_compare_0, !round_float32_sign.
  destruct (Z.eqb_spec s 0) as [->|Hne]; [done|].
  cbn [Z.compare]. destruct (Z.compare_spec s 0); (done || lia).
Qed.

Lemma lr_schedule_no_warmup_witness :
  LRSchedule.call (lr_schedule_0 (tf.Fin target_rate)) 7 = tf.Fin target_rate
  ∧ LRSchedule.warmup_progress (lr_schedule_0 (tf.Fin target_rate)) 7 = tf.Inf false.
Proof. apply (lr_schedule_no_warmup (tf.Fin target_rate) 7). lia. Defined.

(** C8, as the specification has it, fails: without warm-up the divisor
    of the quotient that the schedule forms at step 0 is zero, and the
    quotient is NaN. *)
Lemma lr_schedule_divides_by_zero :
  tf.cast_int (LRSchedule.warmup_steps (lr_schedule_0 (tf.Fin target_rate))) = tf.zero
  ∧ LRSchedule.warmup_progress (lr_schedule_0 (tf.Fin target_rate)) 0
    = tf.div (tf.cast_int 0) tf.zero
  ∧ LRSchedule.warmup_progress (lr_schedule_0 (tf.Fin target_rate)) 0 = tf.NaN
  ∧ tf.cast_float32 (LRSchedule.warmup_steps (lr_schedule_0 (tf.Fin target_rate)))
    = tf.zero.
Proof. repeat split. Qed.

(** ** Greedy decoding *)

Section GreedyBounds.
Context (SEQ_LENGTH : nat).
Context (vectorization : list string → tokens2).
Context (vocab : list string).
Context (decoder : tokens2 → tensor3 → bool → option mask2 → result tensor3).

Lemma caption_loop_bound encoded_img range decoded_caption :
  let r := caption_loop vectorization vocab decoder encoded_img range decoded_caption in
  iterations r ≤ length range
  ∧ ending r ≠ OutOfFuel
  ∧ (∀ c, ending r = Finished BoundExhausted c → iterations r = length range).
Proof.
  revert decoded_caption.
  induction range as [|i range IH]; intros decoded_caption; simpl.
  { repeat split; [lia|done]. }
  destruct (sample_token _ _ _ _ _ _) as [[next|]|e]; simpl.
  - destruct (IH next) as (Hle & Hfuel & Hexh). repeat split; [lia|done|].
    intros c Hc. by rewrite (Hexh c).
  - repeat split; [lia|done..].
  - repeat split; [lia|done..].
Qed.

Lemma word_loop_bound fuel img_embed start_token result :
  Nat.max 1 (SEQ_LENGTH - length result) ≤ fuel →
  let r := word_loop SEQ_LENGTH vocab decoder fuel img_embed start_token result in
  iterations r ≤ Nat.max 1 (SEQ_LENGTH - length result)
  ∧ ending r ≠ OutOfFuel
  ∧ (∀ c, ending r = Finished BoundExhausted c →
       iterations r = Nat.max 1 (SEQ_LENGTH - length result)).
Proof.
  revert start_token result.
  induction fuel as [|fuel IH]; intros start_token result Hfuel; [lia|].
  simpl. destruct (next_word _ _ _ _) as [[word output]|e]; simpl.
  2: { repeat split; [lia|done..]. }
  destruct (String.eqb word "<end>"); simpl.
  { repeat split; [lia|done..]. }
  destruct (Nat.leb_spec SEQ_LENGTH (length (result ++ [word]))) as [Hle|Hlt]; simpl.
  { rewrite length_app in Hle. simpl in Hle. repeat split; [lia|done|]. intros; lia. }
  rewrite length_app in Hlt. simpl in Hlt.
  destruct (IH output (result ++ [word])) as (Hle & Hnot & Hexh).
  { rewrite length_app. simpl. lia. }
  rewrite length_app in Hle, Hexh. simpl in Hle, Hexh.
  repeat split; [lia|done|]. intros c Hc. rewrite (Hexh c Hc). lia.
Qed.
End GreedyBounds.

(** C6, as the code has it: the loop of the first definition is entered
    at most SEQ_LENGTH - 1 times and the loop of the second at most
    SEQ_LENGTH times (once when SEQ_LENGTH is 0), whatever the
    vectorizer, the vocabulary and the decoder do; a run ends with the
    end marker, with the bound, which is then reached exactly, or with an
    exception of one of its calls, and never goes on for ever. *)
Theorem greedy_decoding_bounds (SEQ_LENGTH : nat)
    (vectorization : list string → tokens2) (vocab : list string)
    (decoder : tokens2 → tensor3 → bool → option mask2 → result tensor3)
    (img : tensor3) (fuel : nat) :
  Nat.max 1 SEQ_LENGTH ≤ fuel →
  let first := generate_caption SEQ_LENGTH vectorization vocab decoder img in
  let second := generate_caption' SEQ_LENGTH vectorization vocab decoder fuel img in
  (iterations first ≤ SEQ_LENGTH - 1
   ∧ ending first ≠ OutOfFuel
   ∧ (∀ c, ending first = Finished BoundExhausted c → iterations first = SEQ_LENGTH - 1))
  ∧ (iterations second ≤ Nat.max 1 SEQ_LENGTH
     ∧ ending second ≠ OutOfFuel
     ∧ (∀ c, ending second = Finished BoundExhausted c →
          iterations second = Nat.max 1 SEQ_LENGTH)).
Proof.
  intros Hfuel first second. split.
  - subst first. unfold generate_caption. cbn [iterations ending].
    destruct (caption_loop_bound vectorization vocab decoder img
                (seq 0 (max_decoded_sentence_length SEQ_LENGTH)) "<start> ")
      as (Hle & Hnot & Hexh).
    rewrite length_seq in Hle, Hexh. unfold max_decoded_sentence_length in *.
    destruct (ending _) as [how c| |]; [|done..].
    repeat split; [done..|]. intros c' [= -> _]. by apply (Hexh c).
  - subst second. unfold generate_caption'. cbn [iterations ending].
    destruct (word_loop_bound SEQ_LENGTH vocab decoder fuel img
                (vectorization ["<start>"]) [])
      as (Hle & Hnot & Hexh).
    { simpl. by rewrite Nat.sub_0_r. }
    simpl in Hle, Hexh. rewrite Nat.sub_0_r in Hle, Hexh.
    destruct (ending _) as [how c| |]; [|done..].
    repeat split; [done..|]. intros c' [= -> _]. by apply (Hexh c).
Qed.

Lemma greedy_decoding_bounds_witness :
  let first :=
    generate_caption sequence_length toy_vectorization toy_vocab never_end_decoder [] in
  let second :=
    generate_caption' sequence_length toy_vectorization toy_vocab never_end_decoder 30 [] in
  (iterations first ≤ sequence_length - 1
   ∧ ending first ≠ OutOfFuel
   ∧ (∀ c, ending first = Finished BoundExhausted c →
        iterations first = sequence_length - 1))
  ∧ (iterations second ≤ Nat.max 1 sequence_length
     ∧ ending second ≠ OutOfFuel
     ∧ (∀ c, ending second = Finished BoundExhausted c →
          iterations second = Nat.max 1 sequence_length)).
Proof.
  apply (greedy_decoding_bounds sequence_length toy_vectorization toy_vocab
           never_end_decoder [] 30).
  vm_compute. lia.
Defined.

(** C6, as the specification has it, fails for the second definition:
    with a decoder that never produces the end marker its loop is
    entered 25 times, one more than sequence_length - 1; and with the
    decoder block of the script, called there without a mask, the loop
    ends in its first pass with an exception, neither by the end marker
    nor by the bound. *)
Lemma second_generate_caption_exceeds_bound :
  iterations (generate_caption' sequence_length toy_vectorization toy_vocab
                never_end_decoder 100 []) = 25
  ∧ ¬ (25 ≤ sequence_length - 1)
  ∧ generate_caption' sequence_length toy_vectorization toy_vocab
      (TransformerDecoderBlock.call toy_decoder_block) 100 []
    = Run 1 (Raised (UnboundLocalError "combined_mask")).
Proof.
  split; [vm_compute; reflexivity|]. split; [vm_compute; lia|].
  vm_compute. reflexivity.
Qed.

(** ** The training step *)

Section TrainStepFrame.
Context {images opt_state : Type}.
Context (self : ImageCaptioningModel.t images opt_state).

Let train_vars : list positive :=
  ImageCaptioningModel.encoder_trainable_variables self
  ++ ImageCaptioningModel.decoder_trainable_variables self.

Lemma apply_gradients_frame grads_and_vars st v :
  v ∉ grads_and_vars.*2 →
  ImageCaptioningModel.variables
    (ImageCaptioningModel.apply_gradients self grads_and_vars st) !! v
  = ImageCaptioningModel.variables st !! v.
Proof.
  unfold ImageCaptioningModel.apply_gradients. cbn [ImageCaptioningModel.variables].
  generalize (ImageCaptioningModel.optimizer st) as opt.
  generalize (ImageCaptioningModel.variables st) as w.
  induction grads_and_vars as [|[g x] gv IH]; intros w opt Hv; [done|].
  rewrite fmap_cons, not_elem_of_cons in Hv. destruct Hv as [Hne Hv].
  cbn [foldl]. rewrite IH by done. by apply lookup_alter_ne.
Qed.

Lemma zip_snd_subset {A B} (l : list A) (k : list B) v :
  v ∈ (zip l k).*2 → v ∈ k.
Proof.
  revert k. induction l as [|x l IH]; intros [|y k]; simpl;
    [by intros ?%elem_of_nil..|].
  rewrite !elem_of_cons. intros [->|Hv]; auto.
Qed.

Lemma train_caption_frame img_embed batch_seq i acc v :
  v ∉ train_vars →
  ImageCaptioningModel.variables
    (ImageCaptioningModel.train_caption self img_embed batch_seq i acc).1 !! v
  = ImageCaptioningModel.variables acc.1 !! v.
Proof.
  intros Hv. unfold ImageCaptioningModel.train_caption.
  destruct acc as [st [[batch_loss batch_acc]|e]]; [|done].
  destruct (ImageCaptioningModel.caption_slice batch_seq i) as [seq_i|e]; [|done].
  destruct (ImageCaptioningModel._compute_caption_loss_and_acc _ _ _ _ _)
    as [[loss acc]|e]; [|done].
  cbn [fst]. apply apply_gradients_frame.
  intros Hin%zip_snd_subset. by apply Hv.
Qed.

Lemma train_loop_frame img_embed batch_seq range acc v :
  v ∉ train_vars →
  ImageCaptioningModel.variables
    (foldl (λ acc i, ImageCaptioningModel.train_caption self img_embed batch_seq i acc)
           acc range).1 !! v
  = ImageCaptioningModel.variables acc.1 !! v.
Proof.
  intros Hv. revert acc.
  induction range as [|i range IH]; intros acc; [done|].
  cbn [foldl]. rewrite IH. by apply train_caption_frame.
Qed.

(** A step writes no variable outside the trainable variables of the
    encoder and of the decoder, also when it ends with an exception. *)
Lemma train_step_frame batch_data st v :
  v ∉ train_vars →
  ImageCaptioningModel.variables
    (ImageCaptioningModel.train_step self batch_data st).1 !! v
  = ImageCaptioningModel.variables st !! v.
Proof.
  intros Hv. unfold ImageCaptioningModel.train_step.
  destruct batch_data as [batch_img batch_seq].
  match goal with
  | |- context [foldl ?f ?a ?l] =>
      pose proof (train_loop_frame
        (ImageCaptioningModel.cnn_model self (ImageCaptioningModel.variables st)
           (match ImageCaptioningModel.image_aug self with
            | Some aug => aug batch_img
            | None => batch_img
            end))
        batch_seq l a v Hv) as Hloop;
      destruct (foldl f a l) as [st' [[batch_loss batch_acc]|e]]
  end; [destruct (ImageCaptioningModel.num_captions_per_image self =? 0)|];
  exact Hloop.
Qed.
End TrainStepFrame.

(** C9: a training step updates variables only through
    [apply_gradients] on the trainable variables of the encoder and of
    the decoder; when no variable of the feature extractor is among
    them, every variable of the feature extractor has after the step the
    value it had before, whether the step returns or raises. *)
Theorem train_step_keeps_cnn_variables {images opt_state}
    (self : ImageCaptioningModel.t images opt_state)
    (batch_data : images * list tokens2)
    (st : ImageCaptioningModel.state opt_state) :
  (∀ v, v ∈ ImageCaptioningModel.cnn_variables self →
        v ∉ ImageCaptioningModel.encoder_trainable_variables self
            ++ ImageCaptioningModel.decoder_trainable_variables self) →
  ∀ v, v ∈ ImageCaptioningModel.cnn_variables self →
    ImageCaptioningModel.variables
      (ImageCaptioningModel.train_step self batch_data st).1 !! v
    = ImageCaptioningModel.variables st !! v.
Proof. intros Hdisjoint v Hv. apply train_step_frame. by apply Hdisjoint. Qed.

Lemma train_step_keeps_cnn_variables_witness :
  ImageCaptioningModel.variables
    (ImageCaptioningModel.train_step toy_model toy_batch toy_state).1 !! 1%positive
  = ImageCaptioningModel.variables toy_state !! 1%positive.
Proof.
  apply (train_step_keeps_cnn_variables toy_model toy_batch toy_state).
  - intros v ->%list_elem_of_singleton. simpl. compute_done.
  - simpl. compute_done.
Defined.

(** The same step does write the variables of the encoder and of the
    decoder, and it returns. *)
Example toy_train_step_updates :
  let st' := (ImageCaptioningModel.train_step toy_model toy_batch toy_state).1 in
  ImageCaptioningModel.variables st' !! 1%positive = Some [[tf.cast_int 5]]
  ∧ ImageCaptioningModel.variables st' !! 2%positive = Some [[tf.one]]
  ∧ ImageCaptioningModel.variables st' !! 3%positive = Some [[tf.one]]
  ∧ ∃ metrics,
      (ImageCaptioningModel.train_step toy_model toy_batch toy_state).2 = Ok metrics.
Proof.
  repeat split; [vm_compute; reflexivity..|]. eexists. vm_compute. reflexivity.
Qed.

(** * Further properties *)

(** ** Python strings *)

Lemma startswith_app (p s : string) : py.startswith (p +:+ s) p = true.
Proof.
  unfold py.startswith. induction p as [|c p IH]; simpl; [by destruct s|].
  destruct (ascii_dec c c); [exact IH|done].
Qed.

Lemma endswith_refl (p : string) : py.endswith p p = true.
Proof. destruct p; cbn [py.endswith]; by rewrite String.eqb_refl. Qed.

Lemma endswith_app (s p : string) : py.endswith (s +:+ p) p = true.
Proof.
  induction s as [|c s IH]; [apply endswith_refl|].
  change (py.endswith (String c (s +:+ p)) p = true).
  cbn [py.endswith]. rewrite IH. apply orb_true_r.
Qed.

Lemma lstrip_split_ws (s : string) :
  py.split_ws (py.lstrip py.isspace s) = py.split_ws s.
Proof.
  induction s as [|c s IH]; [done|]. simpl.
  destruct (py.isspace c) eqn:Hc; [exact IH|]. simpl. by rewrite Hc.
Qed.

Lemma split_ws_nil_spaces (s : string) :
  py.split_ws s = [] → py.rstrip py.isspace s = EmptyString.
Proof.
  induction s as [|c s IH]; [done|]. simpl.
  destruct (py.isspace c) eqn:Hc.
  - intros Hs. by rewrite (IH Hs).
  - by destruct (py.split_ws s) as [|w ws]; [|destruct (py.head_isspace s)].
Qed.

Lemma rstrip_head_isspace (s : string) :
  py.split_ws s ≠ [] →
  py.head_isspace (py.rstrip py.isspace s) = py.head_isspace s.
Proof.
  destruct s as [|c s]; [done|]. simpl.
  destruct (py.rstrip py.isspace s) eqn:Hr; [|done].
  destruct (py.isspace c) eqn:Hc; [|by simpl].
  intros Hne. exfalso. apply Hne. clear Hne.
  revert Hr. clear. induction s as [|c s IH]; [done|]. simpl.
  destruct (py.rstrip py.isspace s); [|done].
  destruct (py.isspace c) eqn:Hc; [|done]. intros _. by apply IH.
Qed.

Lemma rstrip_split_ws (s : string) :
  py.split_ws (py.rstrip py.isspace s) = py.split_ws s.
Proof.
  induction s as [|c s IH]; [done|].
  cbn [py.rstrip py.split_ws].
  destruct (py.split_ws s) as [|w ws] eqn:Hs.
  - rewrite (split_ws_nil_spaces s Hs).
    destruct (py.isspace c) eqn:Hc; [done|]. simpl. by rewrite Hc.
  - assert (py.rstrip py.isspace s ≠ EmptyString) as Hne.
    { intros Hr. by rewrite Hr in IH. }
    assert (py.head_isspace (py.rstrip py.isspace s) = py.head_isspace s) as Hhd.
    { apply rstrip_head_isspace. by rewrite Hs. }
    destruct (py.rstrip py.isspace s) as [|c' r] eqn:Hr; [done|].
    cbn [py.split_ws]. cbn [py.split_ws] in IH. rewrite IH.
    destruct (py.isspace c); [done|]. by rewrite <- Hhd.
Qed.

Lemma strip_keeps_words (s : string) :
  py.split_ws (py.strip s) = py.split_ws s.
Proof.
  unfold py.strip, py.strip_by. by rewrite rstrip_split_ws, lstrip_split_ws.
Qed.

(** X8: stripping a string does not change its words, so the second
    [strip] before [split] in the loader changes nothing. *)
Theorem strip_split_ws (s : string) :
  py.split_ws (py.strip s) = py.split_ws s.
Proof.
  unfold py.strip, py.strip_by. by rewrite rstrip_split_ws, lstrip_split_ws.
Qed.

Lemma split_nonempty (sep : ascii) (s : string) : py.split sep s ≠ [].
Proof.
  destruct s as [|c s]; [done|]. simpl.
  destruct (Ascii.eqb c sep); [done|]. by destruct (py.split sep s).
Qed.

(** X6: joining the fields of [s.split(sep)] with the separator gives
    [s] back, and no field contains the separator. *)
Theorem split_join (sep : ascii) (s : string) :
  py_str.join (String sep EmptyString) (py.split sep s) = s
  ∧ Forall (λ field, all_chars (λ c, negb (Ascii.eqb c sep)) field = true)
      (py.split sep s).
Proof.
  induction s as [|c s [IHjoin IHsep]]; [by repeat constructor|].
  pose proof (split_nonempty sep s) as Hne. cbn [py.split].
  destruct (Ascii.eqb_spec c sep) as [->|Hc].
  - split; [|by constructor].
    destruct (py.split sep s) as [|h t]; [done|].
    change (py_str.join (String sep EmptyString) (EmptyString :: h :: t))
      with (String sep (py_str.join (String sep EmptyString) (h :: t))).
    by rewrite IHjoin.
  - destruct (py.split sep s) as [|h t]; [done|]. split.
    + destruct t as [|h' t]; simpl in *; by rewrite <- IHjoin.
    + inversion_clear IHsep as [|? ? Hh Ht]. constructor; [|done].
      simpl. rewrite Hh. by destruct (Ascii.eqb_spec c sep).
Qed.

Lemma split_ws_clean (s : string) :
  Forall (λ w, w ≠ EmptyString ∧ all_chars (λ c, negb (py.isspace c)) w = true)
    (py.split_ws s).
Proof.
  induction s as [|c s IH]; [constructor|]. cbn [py.split_ws].
  destruct (py.isspace c) eqn:Hc; [exact IH|].
  destruct (py.split_ws s) as [|w ws].
  { constructor; [|done]. split; [done|]. simpl. by rewrite Hc. }
  inversion_clear IH as [|? ? [Hw Hall] Hws].
  destruct (py.head_isspace s).
  - constructor; [|by constructor]. split; [done|]. simpl. by rewrite Hc.
  - constructor; [|done]. split; [done|]. simpl. by rewrite Hc, Hall.
Qed.

Lemma head_isspace_app_word (g w rest : string) :
  all_chars py.isspace g = true →
  w ≠ EmptyString → all_chars (λ c, negb (py.isspace c)) w = true →
  py.head_isspace (g +:+ w +:+ rest) = negb (String.eqb g EmptyString).
Proof.
  intros Hg Hw Hclean. destruct g as [|c g].
  - destruct w as [|c w]; [done|]. simpl in *.
    by destruct (py.isspace c).
  - simpl in *. by destruct (py.isspace c).
Qed.

(** X7: the words of [s.split()] are the maximal runs of characters
    that are not whitespace, in their order: no word is empty or holds
    whitespace, and [s] is the words one after the other, each after a
    gap of whitespace that is empty at most before the first word, with
    whitespace only after the last. *)
Theorem split_ws_words (s : string) :
  Forall (λ w, w ≠ EmptyString ∧ all_chars (λ c, negb (py.isspace c)) w = true)
    (py.split_ws s)
  ∧ ∃ gaps trail,
      length gaps = length (py.split_ws s)
      ∧ Forall (λ g, all_chars py.isspace g = true) (trail :: gaps)
      ∧ Forall (λ g, g ≠ EmptyString) (tail gaps)
      ∧ rejoin gaps (py.split_ws s) trail = s.
Proof.
  split; [apply split_ws_clean|].
  induction s as [|c s (gaps & trail & Hlen & Hws & Hgaps & Hjoin)].
  { exists [], EmptyString. by repeat constructor. }
  pose proof (split_ws_clean s) as Hclean.
  cbn [py.split_ws]. destruct (py.isspace c) eqn:Hc.
  - destruct (py.split_ws s) as [|w ws]; destruct gaps as [|g gaps]; try done.
    + exists [], (String c trail). cbn [rejoin] in *. subst s.
      split; [done|]. split; [|done].
      inversion_clear Hws. constructor; [|done]. simpl. by rewrite Hc.
    + exists (String c g :: gaps), trail. cbn [rejoin tail length] in *.
      inversion_clear Hws as [|? ? Htrail Hg]. inversion_clear Hg as [|? ? Hg0 Hg'].
      split; [done|]. split; [|split; [done|by rewrite <- Hjoin]].
      constructor; [done|]. constructor; [|done]. simpl. by rewrite Hc.
  - destruct (py.split_ws s) as [|w ws]; destruct gaps as [|g gaps]; try done.
    + exists [EmptyString], trail. cbn [rejoin] in *. subst s.
      split; [done|]. split; [|done].
      inversion_clear Hws. by repeat constructor.
    + cbn [rejoin tail length] in *.
      inversion_clear Hws as [|? ? Htrail Hg]. inversion_clear Hg as [|? ? Hg0 Hg'].
      inversion_clear Hclean as [|? ? [Hw Hwc] _].
      pose proof (head_isspace_app_word g w (rejoin gaps ws trail) Hg0 Hw Hwc) as Hhead.
      rewrite Hjoin in Hhead. rewrite Hhead.
      destruct g as [|c' g]; cbn [String.eqb negb].
      * exists (EmptyString :: gaps), trail. cbn [rejoin tail length].
        split; [done|]. split; [|split; [done|by rewrite <- Hjoin]].
        by repeat constructor.
      * exists (EmptyString :: String c' g :: gaps), trail. cbn [rejoin tail length].
        split; [by rewrite Hlen|]. split; [|split; [|by rewrite <- Hjoin]].
        -- by repeat constructor.
        -- by constructor.
Qed.

(** ** The caption loader, in general *)

Lemma drop_skipped_lookup (skip : gset string) (m : gmap string (list string)) image :
  drop_skipped skip m !! image = if decide (image ∈ skip) then None else m !! image.
Proof.
  unfold drop_skipped.
  refine (set_fold_ind_L
    (λ (r : gmap string (list string)) (X : gset string),
       r !! image = if decide (image ∈ X) then None else m !! image) _ m _ _ skip).
  - rewrite decide_False; [done|]. apply not_elem_of_empty.
  - intros x X r Hx IH.
    destruct (decide (image = x)) as [->|Hne].
    + rewrite decide_True by (by apply elem_of_union_l, elem_of_singleton).
      destruct (r !! x) eqn:Hr; [apply lookup_delete_eq|done].
    + assert (r !! image = (match r !! x with
                            | Some _ => delete x r
                            | None => r
                            end) !! image) as <-.
      { destruct (r !! x); [by rewrite lookup_delete_ne|done]. }
      rewrite IH. destruct (decide (image ∈ X)) as [Hin|Hout].
      * by rewrite decide_True by (by apply elem_of_union_r).
      * rewrite decide_False; [done|].
        by intros [?%elem_of_singleton|?]%elem_of_union.
Qed.

Lemma map_line_cases st c_data :
  match line_fields c_data with
  | [image_name; caption] =>
      map_line st c_data =
      if bad_length caption
      then Ok (LoaderState (mapped_captions st) (text_data st)
                 ({[line_image image_name]} ∪ skip_these_images st))
      else if py.endswith (line_image image_name) "jpg"
              && negb (bool_decide (line_image image_name ∈ skip_these_images st))
      then Ok (LoaderState
                 (match mapped_captions st !! line_image image_name with
                  | Some caps =>
                      <[line_image image_name := caps ++ [py.strip caption]]>
                        (mapped_captions st)
                  | None =>
                      <[line_image image_name := [py.strip caption]]>
                        (mapped_captions st)
                  end)
                 (text_data st ++ [wrapped (py.strip caption)])
                 (skip_these_images st))
      else Ok st
  | _ => ∃ msg, map_line st c_data = Raise (ValueError msg)
  end.
Proof.
  unfold map_line. fold (line_fields c_data).
  destruct (line_fields c_data) as [|a [|b [|c l]]]; simpl; eauto.
Qed.

Lemma string_app_assoc (a b c : string) : (a +:+ b) +:+ c = a +:+ b +:+ c.
Proof.
  induction a as [|x a IH]; [done|].
  change (String x ((a +:+ b) +:+ c) = String x (a +:+ b +:+ c)). by f_equal.
Qed.

Lemma wrapped_is_wrapped (caption : string) : is_wrapped (wrapped caption).
Proof.
  split; [apply startswith_app|]. unfold wrapped.
  rewrite <- string_app_assoc. apply endswith_app.
Qed.

Lemma bad_length_accepted (caption : string) :
  bad_length caption = false → accepted_length (py.strip caption).
Proof.
  unfold bad_length, caption_words, accepted_length.
  rewrite !strip_keeps_words. intros [H1 H2]%orb_false_elim.
  apply Nat.ltb_ge in H1, H2. lia.
Qed.

Lemma map_line_inv st st' c_data :
  loader_inv (mapped_captions st) (text_data st) →
  map_line st c_data = Ok st' →
  loader_inv (mapped_captions st') (text_data st').
Proof.
  intros [Htexts Hmap] Hline. pose proof (map_line_cases st c_data) as Hcases.
  destruct (line_fields c_data) as [|image_name [|caption [|? ?]]];
    try (destruct Hcases; congruence).
  rewrite Hcases in Hline. clear Hcases.
  destruct (bad_length caption) eqn:Hbad; [by injection Hline as <-|].
  destruct (py.endswith (line_image image_name) "jpg") eqn:Hjpg;
    [|by injection Hline as <-].
  destruct (bool_decide _); simpl in Hline; [by injection Hline as <-|].
  injection Hline as <-. cbn [mapped_captions text_data]. split.
  { apply Forall_app. split; [done|]. constructor; [|done]. apply wrapped_is_wrapped. }
  intros image caps Hlook.
  destruct (decide (image = line_image image_name)) as [->|Hne].
  - destruct (mapped_captions st !! line_image image_name) as [old|] eqn:Hold;
      rewrite lookup_insert_eq in Hlook; injection Hlook as <-.
    + destruct (Hmap _ _ Hold) as (_ & Hne & Hlen & Hin).
      split; [done|]. split; [by destruct old|]. split.
      * apply Forall_app. split; [done|]. constructor; [|done].
        by apply bad_length_accepted.
      * intros c [Hc| ->%list_elem_of_singleton]%elem_of_app.
        -- apply elem_of_app. left. by apply Hin.
        -- apply elem_of_app. right. by apply list_elem_of_singleton.
    + split; [done|]. split; [done|]. split.
      * constructor; [|done]. by apply bad_length_accepted.
      * intros c ->%list_elem_of_singleton.
        apply elem_of_app. right. by apply list_elem_of_singleton.
  - assert (mapped_captions st !! image = Some caps) as Hold.
    { destruct (mapped_captions st !! line_image image_name);
        by rewrite lookup_insert_ne in Hlook. }
    destruct (Hmap _ _ Hold) as (? & ? & ? & Hin).
    repeat split; [done..|]. intros c Hc. apply elem_of_app. left. by apply Hin.
Qed.

Lemma map_lines_inv caption_data st st' :
  loader_inv (mapped_captions st) (text_data st) →
  map_lines st caption_data = Ok st' →
  loader_inv (mapped_captions st') (text_data st').
Proof.
  revert st. induction caption_data as [|c_data rest IH]; intros st Hinv Hrun.
  { by injection Hrun as <-. }
  cbn [map_lines] in Hrun.
  destruct (map_line st c_data) as [st1|e] eqn:Hline; [|done].
  apply (IH st1); [by eapply map_line_inv|done].
Qed.

Lemma map_image_caption_inv caption_data m t :
  map_image_caption caption_data = Ok (m, t) → loader_inv m t.
Proof.
  unfold map_image_caption. intros Hrun.
  destruct (map_lines loader_init caption_data) as [st|e] eqn:Hlines; [|done].
  injection Hrun as <- <-.
  destruct (map_lines_inv caption_data loader_init st) as [Htexts Hmap]; [|done|].
  { split; [constructor|]. intros image caps Hlook.
    cbn [loader_init mapped_captions] in Hlook. by rewrite lookup_empty in Hlook. }
  split; [done|]. intros image caps Hlook. apply Hmap.
  rewrite drop_skipped_lookup in Hlook. by destruct (decide _).
Qed.

(** X1: whenever the loader returns, every text it returns for the
    tokenizer begins with [<start> ] and ends with [ <end>]. *)
Theorem text_data_wrapped caption_data m t :
  map_image_caption caption_data = Ok (m, t) →
  Forall (λ text, py.startswith text "<start> " = true
                  ∧ py.endswith text " <end>" = true) t.
Proof. intros Hrun. by destruct (map_image_caption_inv _ _ _ Hrun). Qed.

Lemma text_data_wrapped_witness :
  Forall (λ text, py.startswith text "<start> " = true
                  ∧ py.endswith text " <end>" = true)
    ["<start> one two three four five <end>"].
Proof.
  apply (text_data_wrapped short_second_caption_file
           (drop_skipped {["Flicker8k_Dataset/a.jpg"]} ∅)).
  vm_compute. reflexivity.
Defined.

(** X4: whenever the loader returns, every key of the mapping ends
    with [jpg], and its captions are at least one, each of 5 to
    [sequence_length] words. *)
Theorem mapped_captions_accepted caption_data m t image caps :
  map_image_caption caption_data = Ok (m, t) →
  m !! image = Some caps →
  py.endswith image "jpg" = true
  ∧ caps ≠ []
  ∧ Forall (λ c, 5 ≤ length (py.split_ws c) ≤ sequence_length) caps.
Proof.
  intros Hrun Hlook. destruct (map_image_caption_inv _ _ _ Hrun) as [_ Hmap].
  destruct (Hmap _ _ Hlook) as (? & ? & ? & _). done.
Qed.

(** X5: whenever the loader returns, each caption of the mapping has its
    copy between the markers among the texts for the tokenizer. *)
Theorem mapped_captions_in_text_data caption_data m t image caps c :
  map_image_caption caption_data = Ok (m, t) →
  m !! image = Some caps → c ∈ caps →
  ("<start> " +:+ c +:+ " <end>") ∈ t.
Proof.
  intros Hrun Hlook Hc. destruct (map_image_caption_inv _ _ _ Hrun) as [_ Hmap].
  destruct (Hmap _ _ Hlook) as (_ & _ & _ & Hin). by apply Hin.
Qed.

Lemma mapped_captions_accepted_witness :
  py.endswith "Flicker8k_Dataset/a.jpg" "jpg" = true
  ∧ ["a b c d e"] ≠ []
  ∧ Forall (λ c, 5 ≤ length (py.split_ws c) ≤ sequence_length) ["a b c d e"].
Proof.
  apply (mapped_captions_accepted one_caption_file
           {["Flicker8k_Dataset/a.jpg" := ["a b c d e"]]}
           ["<start> a b c d e <end>"]).
  - vm_compute. reflexivity.
  - vm_compute. reflexivity.
Defined.

Lemma mapped_captions_in_text_data_witness :
  ("<start> " +:+ "a b c d e" +:+ " <end>") ∈ ["<start> a b c d e <end>"].
Proof.
  apply (mapped_captions_in_text_data one_caption_file
           {["Flicker8k_Dataset/a.jpg" := ["a b c d e"]]}
           ["<start> a b c d e <end>"] "Flicker8k_Dataset/a.jpg" ["a b c d e"]).
  - vm_compute. reflexivity.
  - vm_compute. reflexivity.
  - apply list_elem_of_singleton. reflexivity.
Defined.

Lemma map_line_skip st st' c_data :
  map_line st c_data = Ok st' →
  skip_these_images st ⊆ skip_these_images st'
  ∧ ∀ image_name caption,
      line_fields c_data = [image_name; caption] → bad_length caption = true →
      line_image image_name ∈ skip_these_images st'.
Proof.
  intros Hline. pose proof (map_line_cases st c_data) as Hcases.
  destruct (line_fields c_data) as [|image_name [|caption [|? ?]]];
    try (destruct Hcases; congruence).
  rewrite Hcases in Hline. clear Hcases.
  destruct (bad_length caption) eqn:Hbad.
  - injection Hline as <-. cbn [skip_these_images]. split.
    + apply union_subseteq_r.
    + intros ? ? [= <- <-] _. by apply elem_of_union_l, elem_of_singleton.
  - split; [|by intros ? ? [= <- <-]; congruence].
    destruct (_ && _); by injection Hline as <-.
Qed.

Lemma map_lines_skip caption_data st st' :
  map_lines st caption_data = Ok st' →
  skip_these_images st ⊆ skip_these_images st'
  ∧ ∀ c_data image_name caption,
      c_data ∈ caption_data →
      line_fields c_data = [image_name; caption] → bad_length caption = true →
      line_image image_name ∈ skip_these_images st'.
Proof.
  revert st. induction caption_data as [|c_data rest IH]; intros st Hrun.
  { injection Hrun as <-. split; [done|]. by intros ? ? ? ?%elem_of_nil. }
  cbn [map_lines] in Hrun.
  destruct (map_line st c_data) as [st1|e] eqn:Hline; [|done].
  destruct (map_line_skip _ _ _ Hline) as [Hsub1 Hbad1].
  destruct (IH st1 Hrun) as [Hsub Hbad]. split; [by etrans|].
  intros c image_name caption [->|Hin]%elem_of_cons Hfields Hlen.
  - apply Hsub. by eapply Hbad1.
  - by eapply Hbad.
Qed.

(** X2: whenever the loader returns, an image that has a caption of
    fewer than 5 or more than [sequence_length] words on any line of the
    file is not a key of the returned mapping. *)
Theorem skipped_image_not_mapped caption_data m t c_data image_name caption :
  map_image_caption caption_data = Ok (m, t) →
  c_data ∈ caption_data →
  line_fields c_data = [image_name; caption] →
  bad_length caption = true →
  m !! line_image image_name = None.
Proof.
  unfold map_image_caption. intros Hrun Hin Hfields Hbad.
  destruct (map_lines loader_init caption_data) as [st|e] eqn:Hlines; [|done].
  injection Hrun as <- <-. rewrite drop_skipped_lookup.
  destruct (map_lines_skip _ _ _ Hlines) as [_ Hskip].
  by rewrite decide_True by (by eapply Hskip).
Qed.

Lemma skipped_image_not_mapped_witness :
  (∅ : gmap string (list string)) !! line_image "a.jpg#1" = None.
Proof.
  apply (skipped_image_not_mapped short_second_caption_file ∅
           ["<start> one two three four five <end>"]
           (caption_line "a.jpg#1" "too short") "a.jpg#1" "too short").
  - vm_compute. reflexivity.
  - apply elem_of_cons. right. apply list_elem_of_singleton. reflexivity.
  - vm_compute. reflexivity.
  - vm_compute. reflexivity.
Defined.

Lemma map_lines_ok_iff caption_data st :
  (∃ st', map_lines st caption_data = Ok st')
  ↔ Forall (λ c_data, length (line_fields c_data) = 2) caption_data.
Proof.
  revert st. induction caption_data as [|c_data rest IH]; intros st.
  { split; [constructor|]. intros _. by eexists. }
  cbn [map_lines]. pose proof (map_line_cases st c_data) as Hcases.
  rewrite Forall_cons, <- (IH
    (match map_line st c_data with Ok st1 => st1 | Raise _ => st end)).
  destruct (line_fields c_data) as [|image_name [|caption [|? ?]]].
  1,2,4: (destruct Hcases as [msg ->]; split; [by intros [? ?]|by intros [? _]]).
  assert (∃ st1, map_line st c_data = Ok st1) as [st1 ->].
  { rewrite Hcases. destruct (bad_length caption); [by eexists|].
    destruct (_ && _); by eexists. }
  split; [by intros H|by intros [_ H]].
Qed.

(** X3: the loader raises exactly when some line does not split into
    two fields at the tab, and what it raises is then a [ValueError];
    otherwise it returns. *)
Theorem map_image_caption_raises caption_data :
  ((∃ r, map_image_caption caption_data = Ok r)
   ↔ Forall (λ c_data, length (line_fields c_data) = 2) caption_data)
  ∧ ((∃ msg, map_image_caption caption_data = Raise (ValueError msg))
     ↔ Exists (λ c_data, length (line_fields c_data) ≠ 2) caption_data).
Proof.
  assert (∀ st, (∃ msg, map_lines st caption_data = Raise (ValueError msg))
                ∨ ∃ st', map_lines st caption_data = Ok st') as Hshape.
  { induction caption_data as [|c_data rest IH]; intros st; [right; by eexists|].
    cbn [map_lines]. pose proof (map_line_cases st c_data) as Hcases.
    destruct (line_fields c_data) as [|image_name [|caption [|? ?]]].
    1,2,4: (destruct Hcases as [msg ->]; left; by eexists).
    destruct (map_line st c_data) as [st1|e] eqn:Hline; [apply IH|].
    rewrite Hcases in Hline. destruct (bad_length caption); [done|].
    by destruct (_ && _). }
  pose proof (map_lines_ok_iff caption_data loader_init) as Hok.
  unfold map_image_caption.
  destruct (Hshape loader_init) as [[msg Hraise]|[st' Hrun]].
  - rewrite Hraise in *. split.
    + rewrite <- Hok. split; [by intros [? ?]|by intros [? ?]].
    + split; [intros _|by eexists].
      apply (not_Forall_Exists (λ c_data : string, length (line_fields c_data) = 2)).
      intros HF. apply Hok in HF as [? ?]. done.
  - rewrite Hrun in *. split.
    + split; [intros _; apply Hok; by eexists|by eexists].
    + split; [by intros [? ?]|]. intros HE. exfalso.
      assert (Forall (λ c_data, length (line_fields c_data) = 2) caption_data) as HF.
      { apply Hok. by eexists. }
      apply Exists_exists in HE as (c & Hc & Hne).
      apply Hne. by apply (proj1 (Forall_forall _ _) HF).
Qed.

(** ** The attention mask of the decoder *)



(** ** Accuracy and loss on particular masks *)

Lemma count_valid_and_le (m acc : mask2) :
  count_valid (tf.map2 andb m acc) ≤ count_valid m.
Proof.
  unfold count_valid, tf.map2. revert acc.
  induction m as [|row m IH]; intros [|arow acc]; cbn [zip_with concat];
    [simpl; lia..|].
  rewrite !filter_app, !length_app. specialize (IH acc).
  enough (length (filter (λ valid : bool, valid = true) (zip_with andb row arow))
          ≤ length (filter (λ valid : bool, valid = true) row)) by lia.
  clear. revert arow.
  induction row as [|[] row IH]; intros [|a arow]; cbn [zip_with]; try (simpl; lia).
  - specialize (IH arow). rewrite (filter_cons_True _ true) by done.
    destruct a.
    + rewrite filter_cons_True by done. simpl. lia.
    + rewrite filter_cons_False by done. simpl. lia.
  - rewrite !filter_cons_False by done. apply IH.
Qed.

Lemma cast_int_le a b : (a ≤ b)%Z → (Q2Qc (inject_Z a) <= Q2Qc (inject_Z b))%Qc.
Proof.
  intros Hab. apply Qcle_alt. rewrite cast_int_compare.
  destruct (Z.compare_spec a b); (done || lia).
Qed.

Lemma cast_int_lt a b : (a < b)%Z → (Q2Qc (inject_Z a) < Q2Qc (inject_Z b))%Qc.
Proof.
  intros Hab. apply Qclt_alt. rewrite cast_int_compare.
  destruct (Z.compare_spec a b); (done || lia).
Qed.

Lemma div_cast_int_unit (k n : Z) :
  (0 ≤ k ≤ n)%Z → (0 < n)%Z →
  ∃ q, tf.div (tf.cast_int k) (tf.cast_int n) = tf.Fin q ∧ (0 <= q)%Qc ∧ (q <= 1)%Qc.
Proof.
  intros Hk Hn. unfold tf.cast_int, tf.div. rewrite cast_int_compare_0.
  destruct (Z.compare_spec n 0); [lia|lia|].
  eexists; split; [done|].
  assert (0 < Q2Qc (inject_Z n))%Qc as Hpos by exact (cast_int_lt 0 n Hn).
  assert (Q2Qc (inject_Z k) / Q2Qc (inject_Z n) * Q2Qc (inject_Z n)
          = Q2Qc (inject_Z k))%Qc as Hmul.
  { rewrite Qcmult_comm. apply Qcmult_div_r. intros Hz. rewrite Hz in Hpos.
    by apply Qclt_not_eq in Hpos. }
  split; apply (Qcmult_lt_0_le_reg_r _ _ _ Hpos); rewrite Hmul.
  - rewrite Qcmult_0_l. apply (cast_int_le 0 k). lia.
  - rewrite Qcmult_1_l. apply cast_int_le. lia.
Qed.

(** X10: [calculate_accuracy] is the number of valid positions where
    the arg-max of the prediction is the target, over the number of
    valid positions; with a valid position it is a number from 0 to 1. *)
Theorem calculate_accuracy_fraction {images opt_state}
    (self : ImageCaptioningModel.t images opt_state)
    (y_true : tokens2) (y_pred : tensor3) (mask : mask2) :
  0 < count_valid mask →
  ImageCaptioningModel.calculate_accuracy self y_true y_pred mask
  = tf.div (tf.cast_int (Z.of_nat (count_valid (correct_positions y_true y_pred mask))))
           (tf.cast_int (Z.of_nat (count_valid mask)))
  ∧ count_valid (correct_positions y_true y_pred mask) ≤ count_valid mask
  ∧ ∃ q, ImageCaptioningModel.calculate_accuracy self y_true y_pred mask = tf.Fin q
         ∧ (0 <= q)%Qc ∧ (q <= 1)%Qc.
Proof.
  intros Hvalid.
  assert (ImageCaptioningModel.calculate_accuracy self y_true y_pred mask
    = tf.div (tf.cast_int (Z.of_nat (count_valid (correct_positions y_true y_pred mask))))
             (tf.cast_int (Z.of_nat (count_valid mask)))) as Heq.
  { unfold ImageCaptioningModel.calculate_accuracy.
    by rewrite !reduce_sum_cast_mask. }
  pose proof (count_valid_and_le mask
    (tf.map2 Z.eqb y_true (fmap (M:=list) (fmap (M:=list) tf.argmax) y_pred))) as Hle.
  split; [exact Heq|]. split; [exact Hle|]. rewrite Heq.
  apply div_cast_int_unit; unfold correct_positions; lia.
Qed.

Lemma calculate_accuracy_fraction_witness :
  ImageCaptioningModel.calculate_accuracy toy_model toy_targets toy_predictions toy_mask
  = tf.div
      (tf.cast_int (Z.of_nat (count_valid
         (correct_positions toy_targets toy_predictions toy_mask))))
      (tf.cast_int (Z.of_nat (count_valid toy_mask)))
  ∧ count_valid (correct_positions toy_targets toy_predictions toy_mask)
    ≤ count_valid toy_mask
  ∧ ∃ q, ImageCaptioningModel.calculate_accuracy toy_model toy_targets
           toy_predictions toy_mask = tf.Fin q
         ∧ (0 <= q)%Qc ∧ (q <= 1)%Qc.
Proof. apply calculate_accuracy_fraction. vm_compute. lia. Defined.

Lemma mul_all_valid_row (row : list tf.float32) (m : list bool) :
  length row = length m → Forall (λ valid, valid = true) m →
  zip_with tf.mul row (tf.cast_bool <$> m) = row.
Proof.
  intros Hlen Hm. revert row Hlen.
  induction Hm as [|valid m -> _ IH]; intros [|x row] Hlen; simplify_eq/=; [done|].
  by rewrite mul_one_r, IH.
Qed.

Lemma count_all_valid_row (m : list bool) :
  Forall (λ valid, valid = true) m →
  length (filter (λ valid : bool, valid = true) m) = length m.
Proof.
  induction 1 as [|valid m -> _ IH]; [done|].
  rewrite filter_cons_True by done. simpl. by rewrite IH.
Qed.

(** X11: when the mask and the cross-entropy values have one shape and
    no position is padding, [calculate_loss] is the plain mean: the sum
    of all values over their number. *)
Theorem calculate_loss_all_valid {images opt_state}
    (self : ImageCaptioningModel.t images opt_state)
    (y_true : tokens2) (y_pred : tensor3) (mask : mask2) :
  Forall2 (λ (row : list tf.float32) (m : list bool), length row = length m)
    (ImageCaptioningModel.loss self y_true y_pred) mask →
  Forall (Forall (λ valid, valid = true)) mask →
  ImageCaptioningModel.calculate_loss self y_true y_pred mask
  = tf.div (tf.reduce_sum (ImageCaptioningModel.loss self y_true y_pred))
      (tf.cast_int
         (Z.of_nat (length (concat (ImageCaptioningModel.loss self y_true y_pred))))).
Proof.
  unfold ImageCaptioningModel.calculate_loss.
  generalize (ImageCaptioningModel.loss self y_true y_pred). intros ce Hshape Hvalid.
  rewrite reduce_sum_cast_mask.
  assert (tf.map2 tf.mul ce (tf.cast_mask mask) = ce
          ∧ count_valid mask = length (concat ce)) as [-> ->]; [|done].
  unfold tf.map2, tf.cast_mask, count_valid.
  induction Hshape as [|row m ce mask Hlen _ IH]; [done|].
  inversion_clear Hvalid as [|? ? Hm Hmask].
  destruct (IH Hmask) as [IHmul IHcount].
  rewrite fmap_cons. cbn [zip_with concat].
  rewrite IHmul, mul_all_valid_row by done. split; [done|].
  rewrite filter_app, !length_app, IHcount, count_all_valid_row by done. lia.
Qed.

Lemma calculate_loss_all_valid_witness :
  ImageCaptioningModel.calculate_loss toy_model toy_targets toy_predictions
    [[true; true; true]]
  = tf.div (tf.reduce_sum (ImageCaptioningModel.loss toy_model toy_targets toy_predictions))
      (tf.cast_int (Z.of_nat (length (concat
         (ImageCaptioningModel.loss toy_model toy_targets toy_predictions))))).
Proof.
  apply calculate_loss_all_valid.
  - vm_compute. repeat constructor.
  - repeat constructor.
Defined.

(** ** The training step, when it returns *)

Section TrainStepRuns.
Context {images opt_state : Type}.
Context (self : ImageCaptioningModel.t images opt_state).

Lemma train_caption_ok img_embed batch_seq i acc r :
  (ImageCaptioningModel.train_caption self img_embed batch_seq i acc).2 = Ok r →
  (∃ r0, acc.2 = Ok r0)
  ∧ ImageCaptioningModel.optimizer
      (ImageCaptioningModel.train_caption self img_embed batch_seq i acc).1
    = ImageCaptioningModel.optimizer_step self (ImageCaptioningModel.optimizer acc.1).
Proof.
  unfold ImageCaptioningModel.train_caption.
  destruct acc as [st [[batch_loss batch_acc]|e]]; [|done].
  destruct (ImageCaptioningModel.caption_slice batch_seq i) as [seq_i|e]; [|done].
  destruct (ImageCaptioningModel._compute_caption_loss_and_acc _ _ _ _ _)
    as [[loss acc]|e]; [|done].
  intros _. split; [by eexists|done].
Qed.

Lemma train_loop_ok img_embed batch_seq range acc r :
  (foldl (λ acc i, ImageCaptioningModel.train_caption self img_embed batch_seq i acc)
         acc range).2 = Ok r →
  (∃ r0, acc.2 = Ok r0)
  ∧ ImageCaptioningModel.optimizer
      (foldl (λ acc i, ImageCaptioningModel.train_caption self img_embed batch_seq i acc)
             acc range).1
    = Nat.iter (length range) (ImageCaptioningModel.optimizer_step self)
        (ImageCaptioningModel.optimizer acc.1).
Proof.
  revert acc. induction range as [|i range IH]; intros acc Hok; [by eauto|].
  cbn [foldl] in *. destruct (IH _ Hok) as [[r1 Hr1] Hopt].
  destruct (train_caption_ok _ _ _ _ _ Hr1) as [Hacc Hstep].
  split; [done|]. rewrite Hopt, Hstep. cbn [length]. by rewrite Nat.iter_succ_r.
Qed.

Lemma caption_slice_ok (batch_seq : list tokens2) i :
  Forall (λ caps : tokens2, i < length caps) batch_seq →
  ∃ seq_i, ImageCaptioningModel.caption_slice batch_seq i = Ok seq_i.
Proof.
  unfold ImageCaptioningModel.caption_slice.
  induction 1 as [|caps batch_seq Hlen _ [seq_i IH]]; [by eexists|].
  destruct (lookup_lt_is_Some_2 caps i Hlen) as [c Hc].
  cbn [mapM]. rewrite Hc. cbn. rewrite IH. by eexists.
Qed.
End TrainStepRuns.

(** X12: a training step that returns has made one optimizer step per
    caption: [num_captions_per_image] steps for the batch. *)
Theorem train_step_optimizer_steps {images opt_state}
    (self : ImageCaptioningModel.t images opt_state)
    (batch_data : images * list tokens2)
    (st : ImageCaptioningModel.state opt_state) metrics :
  (ImageCaptioningModel.train_step self batch_data st).2 = Ok metrics →
  ImageCaptioningModel.optimizer (ImageCaptioningModel.train_step self batch_data st).1
  = Nat.iter (ImageCaptioningModel.num_captions_per_image self)
      (ImageCaptioningModel.optimizer_step self) (ImageCaptioningModel.optimizer st).
Proof.
  unfold ImageCaptioningModel.train_step. destruct batch_data as [batch_img batch_seq].
  match goal with
  | |- context [foldl ?f ?a ?l] =>
      pose proof (λ r, train_loop_ok self
        (ImageCaptioningModel.cnn_model self (ImageCaptioningModel.variables st)
           (match ImageCaptioningModel.image_aug self with
            | Some aug => aug batch_img
            | None => batch_img
            end))
        batch_seq l a r) as Hloop;
      destruct (foldl f a l) as [st' [[batch_loss batch_acc]|e]]
  end; [|done].
  destruct (ImageCaptioningModel.num_captions_per_image self =? 0); [done|].
  intros _. destruct (Hloop _ eq_refl) as [_ Hopt].
  rewrite length_seq in Hopt. exact Hopt.
Qed.

Lemma train_step_optimizer_steps_witness :
  ImageCaptioningModel.optimizer
    (ImageCaptioningModel.train_step toy_model toy_batch toy_state).1
  = Nat.iter (ImageCaptioningModel.num_captions_per_image toy_model)
      (ImageCaptioningModel.optimizer_step toy_model)
      (ImageCaptioningModel.optimizer toy_state).
Proof.
  eapply (train_step_optimizer_steps toy_model toy_batch toy_state).
  vm_compute. reflexivity.
Defined.

Section TrainStepReturns.
Context {images opt_state : Type}.
Context (self : ImageCaptioningModel.t images opt_state).
Hypothesis decoder_with_mask :
  ∀ w inputs encoder_out training mask,
    ∃ preds, ImageCaptioningModel.decoder self w inputs encoder_out training (Some mask)
             = Ok preds.

Lemma compute_caption_ok w img_embed batch_seq training :
  ∃ r, ImageCaptioningModel._compute_caption_loss_and_acc self w img_embed batch_seq
         training = Ok r.
Proof.
  unfold ImageCaptioningModel._compute_caption_loss_and_acc.
  match goal with
  | |- context [ImageCaptioningModel.decoder self ?w ?i ?e ?t (Some ?m)] =>
      destruct (decoder_with_mask w i e t m) as [preds ->]
  end.
  by eexists.
Qed.

Lemma train_loop_returns img_embed (batch_seq : list tokens2) range acc :
  Forall (λ i, Forall (λ caps : tokens2, i < length caps) batch_seq) range →
  (∃ r0, acc.2 = Ok r0) →
  ∃ r, (foldl (λ acc i, ImageCaptioningModel.train_caption self img_embed batch_seq i acc)
              acc range).2 = Ok r.
Proof.
  intros Hrange. revert acc.
  induction Hrange as [|i range Hi _ IH]; intros acc Hacc; [done|].
  cbn [foldl]. apply IH. destruct acc as [st [[batch_loss batch_acc]|e]];
    [|by destruct Hacc].
  unfold ImageCaptioningModel.train_caption.
  destruct (caption_slice_ok batch_seq i Hi) as [seq_i ->].
  destruct (compute_caption_ok (ImageCaptioningModel.variables st) img_embed seq_i true)
    as [[loss acc] ->].
  by eexists.
Qed.
End TrainStepReturns.

(** X13: a training step returns its two metrics, and raises nothing,
    when [num_captions_per_image] is at least 1, the decoder returns on
    every call that passes a mask and every image of the batch comes
    with at least [num_captions_per_image] captions. *)
Theorem train_step_returns {images opt_state}
    (self : ImageCaptioningModel.t images opt_state)
    (batch_img : images) (batch_seq : list tokens2)
    (st : ImageCaptioningModel.state opt_state) :
  0 < ImageCaptioningModel.num_captions_per_image self →
  (∀ w inputs encoder_out training mask,
     ∃ preds, ImageCaptioningModel.decoder self w inputs encoder_out training (Some mask)
              = Ok preds) →
  Forall (λ caps : tokens2, ImageCaptioningModel.num_captions_per_image self ≤ length caps)
    batch_seq →
  ∃ metrics,
    (ImageCaptioningModel.train_step self (batch_img, batch_seq) st).2 = Ok metrics.
Proof.
  intros Hpos Hdec Hcaps. unfold ImageCaptioningModel.train_step.
  match goal with
  | |- context [foldl ?f ?a ?l] =>
      destruct (train_loop_returns self Hdec
        (ImageCaptioningModel.cnn_model self (ImageCaptioningModel.variables st)
           (match ImageCaptioningModel.image_aug self with
            | Some aug => aug batch_img
            | None => batch_img
            end))
        batch_seq l a) as [[batch_loss batch_acc] Hloop]
  end.
  - apply Forall_forall. intros i [_ Hi]%elem_of_seq.
    eapply Forall_impl; [exact Hcaps|]. intros caps Hlen. simpl in *. lia.
  - by eexists.
  - destruct (foldl _ _ _) as [st' [[? ?]|e]]; [|done].
    destruct (Nat.eqb_spec (ImageCaptioningModel.num_captions_per_image self) 0);
      [lia|]. by eexists.
Qed.

Lemma train_step_returns_witness :
  ∃ metrics,
    (ImageCaptioningModel.train_step toy_model (tt, toy_batch.2) toy_state).2 = Ok metrics.
Proof.
  apply (train_step_returns toy_model tt toy_batch.2 toy_state).
  - simpl. lia.
  - intros. eexists. reflexivity.
  - repeat constructor.
Defined.

(** With no caption per image the step raises: [batch_acc] is still the
    Python integer 0 when it is divided by [float(0)]; nothing was
    written before. *)
Lemma train_step_no_captions {images opt_state}
    (self : ImageCaptioningModel.t images opt_state)
    (batch_data : images * list tokens2)
    (st : ImageCaptioningModel.state opt_state) :
  ImageCaptioningModel.num_captions_per_image self = 0 →
  ImageCaptioningModel.train_step self batch_data st = (st, Raise ZeroDivisionError).
Proof.
  intros HK. unfold ImageCaptioningModel.train_step.
  destruct batch_data as [batch_img batch_seq]. by rewrite HK.
Qed.

(** ** The learning-rate schedule, in general *)

Lemma div_mul_cancel (a w : Qc) : (0 < w)%Qc → (a / w * w = a)%Qc.
Proof.
  intros Hw. rewrite Qcmult_comm. apply Qcmult_div_r.
  intros Hz. rewrite Hz in Hw. by apply Qclt_not_eq in Hw.
Qed.

Lemma call_range (target : Qc) (w s : Z) :
  (0 <= target)%Qc → (0 ≤ s)%Z →
  ∃ q, LRSchedule.call {| LRSchedule.post_warmup_learning_rate := tf.Fin target;
                          LRSchedule.warmup_steps := w |} s = tf.Fin q
       ∧ (0 <= q)%Qc ∧ (q <= target)%Qc
       ∧ ((tf.round_float32 w ≤ tf.round_float32 s)%Z → q = target)
       ∧ ((tf.round_float32 s < tf.round_float32 w)%Z →
          q = (target * Q2Qc (inject_Z (tf.round_float32 s))
               / Q2Qc (inject_Z (tf.round_float32 w)))%Qc).
Proof.
  intros Ht Hs.
  assert (0 ≤ tf.round_float32 s)%Z as Hrs.
  { rewrite <- (round_float32_exact 0) by done. by apply round_float32_mono. }
  destruct (Z.lt_ge_cases (tf.round_float32 s) (tf.round_float32 w)) as [Hlt|Hge].
  - rewrite call_warmup_rounded by lia. eexists. split; [done|].
    assert (0 < Q2Qc (inject_Z (tf.round_float32 w)))%Qc as Hw
      by (apply (cast_int_lt 0); lia).
    assert (0 <= Q2Qc (inject_Z (tf.round_float32 s)))%Qc as Hs0
      by (apply (cast_int_le 0); lia).
    split; [|split; [|split; [lia|done]]].
    + apply (Qcmult_lt_0_le_reg_r _ _ _ Hw). rewrite div_mul_cancel, Qcmult_0_l by done.
      rewrite Qcmult_comm, <- (Qcmult_0_l target). by apply Qcmult_le_compat_r.
    + apply (Qcmult_lt_0_le_reg_r _ _ _ Hw). rewrite div_mul_cancel by done.
      rewrite !(Qcmult_comm target). apply Qcmult_le_compat_r; [|done].
      apply cast_int_le. lia.
  - rewrite call_constant_rounded by done. eexists. split; [done|].
    split; [done|]. split; [apply Qcle_refl|]. split; [done|lia].
Qed.

(** X14: for a target rate that is not negative, the schedule at the
    steps s ≥ 0 lies between 0 and the target and never decreases from
    one step to a later one. *)
Theorem lr_schedule_bounded_monotone (target : Qc) (w s s' : Z) :
  (0 <= target)%Qc → (0 ≤ s)%Z → (s ≤ s')%Z →
  ∃ q q',
    LRSchedule.call {| LRSchedule.post_warmup_learning_rate := tf.Fin target;
                       LRSchedule.warmup_steps := w |} s = tf.Fin q
    ∧ LRSchedule.call {| LRSchedule.post_warmup_learning_rate := tf.Fin target;
                         LRSchedule.warmup_steps := w |} s' = tf.Fin q'
    ∧ (0 <= q)%Qc ∧ (q <= q')%Qc ∧ (q' <= target)%Qc.
Proof.
  intros Ht Hs Hss.
  destruct (call_range target w s Ht Hs) as (q & Hq & Hq0 & Hqt & Hqc & Hqw).
  destruct (call_range target w s' Ht) as (q' & Hq' & Hq'0 & Hq't & Hq'c & Hq'w); [lia|].
  exists q, q'. split; [done|]. split; [done|]. split; [done|]. split; [|done].
  pose proof (round_float32_mono s s' Hss) as Hmono.
  destruct (Z.lt_ge_cases (tf.round_float32 s') (tf.round_float32 w)) as [Hlt|Hge].
  - rewrite Hqw, Hq'w by lia.
    assert (0 < Q2Qc (inject_Z (tf.round_float32 w)))%Qc as Hw.
    { apply (cast_int_lt 0).
      pose proof (round_float32_mono 0 s Hs) as H0.
      rewrite (round_float32_exact 0) in H0 by done. lia. }
    apply (Qcmult_lt_0_le_reg_r _ _ _ Hw). rewrite !div_mul_cancel by done.
    rewrite !(Qcmult_comm target). apply Qcmult_le_compat_r; [|done].
    by apply cast_int_le.
  - by rewrite (Hq'c Hge).
Qed.

Lemma lr_schedule_bounded_monotone_witness :
  ∃ q q',
    LRSchedule.call lr_schedule_100 40 = tf.Fin q
    ∧ LRSchedule.call lr_schedule_100 160 = tf.Fin q'
    ∧ (0 <= q)%Qc ∧ (q <= q')%Qc ∧ (q' <= target_rate)%Qc.
Proof.
  apply (lr_schedule_bounded_monotone target_rate 100 40 160); [|lia..].
  apply Qcle_alt. vm_compute. discriminate.
Defined.

(** ** Greedy decoding, in general *)

Lemma list_to_map_zip_range (l : list string) (a : nat) (k : Z) :
  (list_to_map (zip (Z.of_nat <$> seq a (length l)) l) : gmap Z string) !! k
  = if decide (Z.of_nat a ≤ k)%Z then l !! (Z.to_nat k - a) else None.
Proof.
  revert a. induction l as [|x l IH]; intros a.
  { cbn. rewrite lookup_empty. by destruct (decide _). }
  cbn [length seq fmap list_fmap zip zip_with list_to_map foldr uncurry].
  change (foldr (λ p, <[p.1:=p.2]>) ∅ (zip_with pair (Z.of_nat <$> seq (S a) (length l)) l))
    with (list_to_map (M:=gmap Z string) (zip (Z.of_nat <$> seq (S a) (length l)) l)).
  cbn [fst snd]. rewrite lookup_insert.
  destruct (decide (Z.of_nat a = k)) as [<-|Hne].
  - rewrite decide_True by lia. by replace (Z.to_nat (Z.of_nat a) - a) with 0 by lia.
  - rewrite IH. destruct (decide (Z.of_nat a ≤ k)%Z).
    + rewrite decide_True by lia.
      by replace (Z.to_nat k - a) with (S (Z.to_nat k - S a)) by lia.
    + by rewrite decide_False by lia.
Qed.

(** X15: [index_lookup] has exactly the keys 0 .. len(vocab) - 1, and at
    the key k the word at position k of the vocabulary; any other index
    is a missing key. *)
Theorem index_lookup_spec (vocab : list string) (k : Z) :
  index_lookup vocab !! k
  = if decide (0 ≤ k)%Z then vocab !! Z.to_nat k else None.
Proof.
  unfold index_lookup, tf.range. rewrite (list_to_map_zip_range vocab 0 k).
  simpl. by rewrite Nat.sub_0_r.
Qed.

Section WordLoop.
Context (SEQ_LENGTH : nat).
Context (vocab : list string).
Context (decoder : tokens2 → tensor3 → bool → option mask2 → result tensor3).

Lemma word_loop_words fuel img_embed start_token result how words :
  ending (word_loop SEQ_LENGTH vocab decoder fuel img_embed start_token result)
  = Finished how words →
  ∃ init w,
    words = result ++ init ++ [w]
    ∧ iterations (word_loop SEQ_LENGTH vocab decoder fuel img_embed start_token result)
      = S (length init)
    ∧ Forall (λ x, x ≠ "<end>") init
    ∧ (how = EndMarker ↔ w = "<end>")
    ∧ (how = BoundExhausted → SEQ_LENGTH ≤ length words).
Proof.
  revert start_token result.
  induction fuel as [|fuel IH]; intros start_token result; [done|].
  cbn [word_loop]. destruct (next_word _ _ _ _) as [[word output]|e]; [|done].
  destruct (String.eqb_spec word "<end>") as [->|Hword].
  - intros [= <- <-]. exists [], "<end>". repeat split; (done || constructor).
  - destruct (Nat.leb_spec SEQ_LENGTH (length (result ++ [word]))) as [Hle|Hlt].
    + intros [= <- <-]. exists [], word. repeat split; (done || constructor).
    + cbn [one_more iterations ending]. intros Hend.
      destruct (IH _ _ Hend) as (init & w & -> & Hiter & Hinit & Hhow & Hbound).
      exists (word :: init), w. rewrite <- app_assoc in Hbound.
      rewrite Hiter, <- !app_assoc.
      repeat split; try done; try apply Hhow; try (by constructor).
Qed.
End WordLoop.

(** X16: when the loop of the second [generate_caption] ends without an
    exception, its list of words has one word per pass and at least one;
    [<end>] can only be its last word, and is the last word exactly when
    the loop ended by the end marker; when it ended by the bound the
    list has at least SEQ_LENGTH words. *)
Theorem word_loop_result (SEQ_LENGTH : nat) (vocab : list string)
    (decoder : tokens2 → tensor3 → bool → option mask2 → result tensor3)
    (fuel : nat) (img_embed : tensor3) (start_token : tokens2)
    (how : loop_exit) (words : list string) :
  ending (word_loop SEQ_LENGTH vocab decoder fuel img_embed start_token [])
  = Finished how words →
  ∃ init w,
    words = init ++ [w]
    ∧ iterations (word_loop SEQ_LENGTH vocab decoder fuel img_embed start_token [])
      = length words
    ∧ Forall (λ x, x ≠ "<end>") init
    ∧ (how = EndMarker ↔ w = "<end>")
    ∧ (how = BoundExhausted → SEQ_LENGTH ≤ length words).
Proof.
  intros Hend.
  destruct (word_loop_words _ _ _ _ _ _ _ _ _ Hend)
    as (init & w & -> & Hiter & Hinit & Hhow & Hbound).
  exists init, w. rewrite Hiter, app_nil_l, length_app. simpl.
  repeat split; try done; try apply Hhow; try lia.
  intros Hb. specialize (Hbound Hb). rewrite app_nil_l, length_app in Hbound.
  simpl in Hbound. done.
Qed.

Lemma word_loop_result_witness :
  ∃ init w,
    replicate 25 "a" = init ++ [w]
    ∧ iterations (word_loop sequence_length toy_vocab never_end_decoder 100 []
                    (toy_vectorization ["<start>"]) [])
      = length (replicate 25 "a")
    ∧ Forall (λ x, x ≠ "<end>") init
    ∧ (BoundExhausted = EndMarker ↔ w = "<end>")
    ∧ (BoundExhausted = BoundExhausted → sequence_length ≤ length (replicate 25 "a")).
Proof.
  apply (word_loop_result sequence_length toy_vocab never_end_decoder 100 []
           (toy_vectorization ["<start>"]) BoundExhausted (replicate 25 "a")).
  vm_compute. reflexivity.
Defined.

(** ** The split into training and validation data *)

Lemma select_keys_lookup (caption_data : gmap string (list string)) names image :
  select_keys caption_data names !! image
  = if decide (image ∈ names) then Some (caption_data !!! image) else None.
Proof.
  unfold select_keys. induction names as [|name names IH].
  { cbn. rewrite lookup_empty. rewrite decide_False; [done|]. apply not_elem_of_nil. }
  rewrite fmap_cons, list_to_map_cons, lookup_insert.
  destruct (decide (name = image)) as [->|Hne].
  - rewrite decide_True; [done|]. apply list_elem_of_here.
  - rewrite IH. destruct (decide (image ∈ names)) as [Hin|Hout].
    + rewrite decide_True; [done|]. by apply list_elem_of_further.
    + rewrite decide_False; [done|]. by intros [?|?]%elem_of_cons.
Qed.

(** X17: whatever rearrangement the shuffle makes, the training and
    the validation data share no image, together they are the whole
    mapping with every caption list as it was, and the training data
    hold four fifths of the images, rounded down. *)
Theorem train_val_split_partition (shuffle : list string → list string)
    (caption_data : gmap string (list string)) :
  (∀ l, shuffle l ≡ₚ l) →
  (train_val_split shuffle caption_data).1 ##ₘ (train_val_split shuffle caption_data).2
  ∧ (train_val_split shuffle caption_data).1 ∪ (train_val_split shuffle caption_data).2
    = caption_data
  ∧ size (train_val_split shuffle caption_data).1 = size caption_data * 4 / 5.
Proof.
  intros Hperm. unfold train_val_split. cbn [fst snd].
  set (keys := (map_to_list caption_data).*1).
  set (n := size caption_data * 4 / 5).
  assert (NoDup (shuffle keys)) as Hnodup.
  { rewrite Hperm. apply NoDup_fst_map_to_list. }
  assert (∀ image, image ∈ shuffle keys ↔ is_Some (caption_data !! image)) as Hkeys.
  { intros image. rewrite Hperm. unfold keys. rewrite list_elem_of_fmap. split.
    - intros [[k v] [-> Hin%elem_of_map_to_list]]. by eexists.
    - intros [v Hv]. exists (image, v). split; [done|]. by apply elem_of_map_to_list. }
  assert (length (shuffle keys) = size caption_data) as Hlen.
  { rewrite Hperm. unfold keys. by rewrite length_fmap, length_map_to_list. }
  rewrite <- (take_drop n (shuffle keys)) in Hnodup, Hkeys.
  apply NoDup_app in Hnodup as (Hnd1 & Hdisj & Hnd2).
  split; [|split].
  - apply map_disjoint_spec. intros image x y. rewrite !select_keys_lookup.
    destruct (decide (image ∈ take n (shuffle keys))) as [Hin|]; [|done].
    destruct (decide (image ∈ drop n (shuffle keys))) as [Hin'|]; [|done].
    by destruct (Hdisj image).
  - apply map_eq. intros image. rewrite lookup_union, !select_keys_lookup.
    specialize (Hkeys image). rewrite elem_of_app in Hkeys.
    destruct (decide (image ∈ take n (shuffle keys))) as [Hin|Hout].
    + destruct (proj1 Hkeys (or_introl Hin)) as [v Hv].
      rewrite (lookup_total_correct _ _ _ Hv), Hv. by destruct (decide _).
    + destruct (decide (image ∈ drop n (shuffle keys))) as [Hin'|Hout'].
      * destruct (proj1 Hkeys (or_intror Hin')) as [v Hv].
        by rewrite (lookup_total_correct _ _ _ Hv), Hv.
      * destruct (caption_data !! image) as [v|] eqn:Hv; [|done].
        destruct (proj2 Hkeys (ex_intro _ v eq_refl)); done.
  - unfold select_keys. rewrite map_size_list_to_map.
    + rewrite length_fmap, length_take, Hlen. unfold n.
      pose proof (Nat.Div0.div_le_upper_bound (size caption_data * 4) 5 (size caption_data)).
      lia.
    + rewrite <- list_fmap_compose.
      by rewrite (list_fmap_ext _ id _ (λ _ _ _, eq_refl)), list_fmap_id.
Qed.

Lemma train_val_split_partition_witness :
  (train_val_split reverse {["a.jpg" := ["one"]; "b.jpg" := ["two"]]}).1
    ##ₘ (train_val_split reverse {["a.jpg" := ["one"]; "b.jpg" := ["two"]]}).2
  ∧ (train_val_split reverse {["a.jpg" := ["one"]; "b.jpg" := ["two"]]}).1
    ∪ (train_val_split reverse {["a.jpg" := ["one"]; "b.jpg" := ["two"]]}).2
    = {["a.jpg" := ["one"]; "b.jpg" := ["two"]]}
  ∧ size (train_val_split reverse {["a.jpg" := ["one"]; "b.jpg" := ["two"]]}).1
    = size ({["a.jpg" := ["one"]; "b.jpg" := ["two"]]} : gmap string (list string)) * 4 / 5.
Proof.
  apply (train_val_split_partition reverse). intros l. apply reverse_Permutation.
Defined.

(** ** Standardization of the captions *)

Lemma strip_chars_value :
  standardize_text.strip_chars
  = String "!" (String standardize_text.double_quote "#$%&'()*+,-./:;=?@[\]^_`{|}~").
Proof. reflexivity. Qed.

Lemma lower_app (a b : string) :
  standardize_text.lower (a +:+ b)
  = standardize_text.lower a +:+ standardize_text.lower b.
Proof.
  induction a as [|c a IH]; [done|].
  change (String (standardize_text.lower_char c) (standardize_text.lower (a +:+ b))
          = String (standardize_text.lower_char c)
              (standardize_text.lower a +:+ standardize_text.lower b)).
  by rewrite IH.
Qed.

Lemma remove_chars_app (chars a b : string) :
  standardize_text.remove_chars chars (a +:+ b)
  = standardize_text.remove_chars chars a +:+ standardize_text.remove_chars chars b.
Proof.
  induction a as [|c a IH]; [done|].
  change (String c a +:+ b) with (String c (a +:+ b)).
  cbn [standardize_text.remove_chars]. rewrite IH.
  by destruct (standardize_text.in_chars c chars).
Qed.

Lemma standardize_app (a b : string) :
  standardize_text.standardize (a +:+ b)
  = standardize_text.standardize a +:+ standardize_text.standardize b.
Proof. unfold standardize_text.standardize. by rewrite lower_app, remove_chars_app. Qed.

(** X18: standardization works character by character and leaves the
    two markers alone: a caption between its markers is standardized to
    its standardized text between the same markers. *)
Theorem standardize_keeps_markers (caption : string) :
  standardize_text.standardize ("<start> " +:+ caption +:+ " <end>")
  = "<start> " +:+ standardize_text.standardize caption +:+ " <end>".
Proof.
  rewrite (standardize_app "<start> "), (standardize_app caption " <end>").
  reflexivity.
Qed.

Lemma lower_char_idemp (c : ascii) :
  standardize_text.lower_char (standardize_text.lower_char c)
  = standardize_text.lower_char c.
Proof. destruct c as [[] [] [] [] [] [] [] []]; reflexivity. Qed.

Lemma lower_char_not_upper (c : ascii) :
  let n := nat_of_ascii (standardize_text.lower_char c) in
  (65 <=? n) && (n <=? 90) = false.
Proof. destruct c as [[] [] [] [] [] [] [] []]; reflexivity. Qed.

Lemma standardize_chars (s : string) :
  all_chars (λ c, negb (standardize_text.in_chars c standardize_text.strip_chars)
                  && (standardize_text.lower_char c =? c)%char)
    (standardize_text.standardize s) = true.
Proof.
  unfold standardize_text.standardize. induction s as [|c s IH]; [done|].
  cbn [standardize_text.lower standardize_text.remove_chars].
  destruct (standardize_text.in_chars _ _) eqn:Hin; [exact IH|].
  cbn [all_chars]. rewrite Hin, IH, lower_char_idemp, Ascii.eqb_refl. done.
Qed.

(** X19: a standardized text holds no capital letter A to Z and none of
    the punctuation characters that [standardize] removes, and
    standardizing it again changes nothing. *)
Theorem standardize_idempotent (s : string) :
  all_chars (λ c, negb (standardize_text.in_chars c standardize_text.strip_chars)
                  && negb ((65 <=? nat_of_ascii c) && (nat_of_ascii c <=? 90)))
    (standardize_text.standardize s) = true
  ∧ standardize_text.standardize (standardize_text.standardize s)
    = standardize_text.standardize s.
Proof.
  pose proof (standardize_chars s) as Hchars. revert Hchars.
  generalize (standardize_text.standardize s). intros t.
  unfold standardize_text.standardize.
  generalize standardize_text.strip_chars. intros chars.
  induction t as [|c t IH]; [done|].
  cbn [all_chars standardize_text.lower standardize_text.remove_chars].
  intros [[Hin Hlow]%andb_prop Ht]%andb_prop.
  apply Ascii.eqb_eq in Hlow. destruct (IH Ht) as [IH1 IH2].
  pose proof (lower_char_not_upper c) as Hup. cbn zeta in Hup. rewrite Hlow in Hup.
  rewrite Hin, Hup, IH1. split; [reflexivity|].
  apply negb_true_iff in Hin. rewrite Hlow, Hin. f_equal. exact IH2.
Qed.

Lemma div_cast_int_by_one (k : Z) :
  tf.div (tf.cast_int k) (tf.cast_int 1) = tf.cast_int k.
Proof.
  unfold tf.cast_int, tf.div. rewrite cast_int_compare_0. cbn [Z.compare].
  f_equal. unfold Qcdiv. change (/ Q2Qc (inject_Z 1))%Qc with 1%Qc.
  apply Qcmult_1_r.
Qed.

(** X20: on a caption with exactly one valid position the accuracy is
    1 when the arg-max at that position is the target and 0 when it is
    not; it is never a fraction. *)
Theorem calculate_accuracy_single_position {images opt_state}
    (self : ImageCaptioningModel.t images opt_state)
    (y_true : tokens2) (y_pred : tensor3) (mask : mask2) :
  count_valid mask = 1 →
  ImageCaptioningModel.calculate_accuracy self y_true y_pred mask
  = (if decide (count_valid (correct_positions y_true y_pred mask) = 1)
     then tf.one else tf.zero).
Proof.
  intros Hone. unfold ImageCaptioningModel.calculate_accuracy.
  rewrite !reduce_sum_cast_mask, Hone.
  pose proof (count_valid_and_le mask
    (tf.map2 Z.eqb y_true (fmap (M:=list) (fmap (M:=list) tf.argmax) y_pred))) as Hle.
  fold (correct_positions y_true y_pred mask) in Hle |- *. rewrite Hone in Hle.
  change (Z.of_nat 1) with 1%Z. rewrite div_cast_int_by_one.
  destruct (decide _) as [->|Hne]; [reflexivity|].
  by replace (count_valid (correct_positions y_true y_pred mask)) with 0 by lia.
Qed.

Lemma calculate_accuracy_single_position_witness :
  ImageCaptioningModel.calculate_accuracy toy_model toy_targets toy_predictions
    [[false; true; false]]
  = (if decide (count_valid
                  (correct_positions toy_targets toy_predictions [[false; true; false]]) = 1)
     then tf.one else tf.zero).
Proof. apply calculate_accuracy_single_position. reflexivity. Defined.
